(** * ReadWriterLock::read_write_lock  (src/read_write_lock.h)

    A shallow embedding of the reader/writer lock as an interleaving
    transition system.  Every access to shared data in the header is a
    sequentially consistent atomic operation ([std::atomic] with the default
    memory order) or a [std::mutex] / [std::condition_variable] call, so a
    thread is a program counter walking through the body of the member
    function it is executing, and one transition is one such access.

    The clients are the most general ones that respect the caller contract:
    a thread may call [start_read] and [start_write] whenever it is outside
    the lock's code, [end_read] only while it holds a read admission and
    [end_write] only while it holds the write admission.

    What the model fixes: [int] is 32 bits and [char] 8 bits, signed, in
    two's complement; locking a locked [std::mutex] blocks; a thread in
    [wait] releases the mutex and parks in one step, is woken by
    [notify_all] or spuriously, and re-acquires the mutex before it goes on;
    a notification reaches exactly the threads parked at that moment. *)

From Stdlib Require Import ZArith Lia Bool List.
From stdpp Require Import base option list.

Local Open Scope Z_scope.

Module ReadWriterLock.

(** ** Machine integers *)

(** Two's complement wrap-around of a [bits]-wide signed integer; the
    arithmetic of [std::atomic<T>::operator++], [--], [+=] and [-=]. *)
Definition wrap_signed (bits x : Z) : Z :=
  (x + 2 ^ (bits - 1)) mod 2 ^ bits - 2 ^ (bits - 1).

(** [int] of [std::atomic_int reader_count]. *)
Definition wrap_int (x : Z) : Z := wrap_signed 32 x.

(** [char] of [std::atomic_char writer_waiting] (signed, as on x86; with an
    unsigned [char] the stored byte is the same modulo [2^8], and the code
    only ever compares it with zero). *)
Definition wrap_char (x : Z) : Z := wrap_signed 8 x.

Definition INT_MAX : Z := 2 ^ 31 - 1.
Definition INT_MIN : Z := - 2 ^ 31.

(** ** The data members *)

(** [true] is a locked [std::mutex].  The two condition variables have no
    data of their own: their wait sets are the threads parked at the
    corresponding program counter (see [pc]). *)
Record read_write_lock := {
  reader_count : Z;
  writer_waiting : Z;
  read_mutex : bool;
  write_mutex : bool
}.

(** [const char NOT_WRITING = 0;] *)
Definition NOT_WRITING : Z := 0.

(** [explicit read_write_lock() : reader_count(0), writer_waiting(0) {}] *)
Definition read_write_lock_new : read_write_lock :=
  {| reader_count := 0; writer_waiting := 0;
     read_mutex := false; write_mutex := false |}.

Definition set_reader_count (v : Z) (l : read_write_lock) : read_write_lock :=
  {| reader_count := v; writer_waiting := writer_waiting l;
     read_mutex := read_mutex l; write_mutex := write_mutex l |}.

Definition set_writer_waiting (v : Z) (l : read_write_lock) : read_write_lock :=
  {| reader_count := reader_count l; writer_waiting := v;
     read_mutex := read_mutex l; write_mutex := write_mutex l |}.

Definition set_read_mutex (b : bool) (l : read_write_lock) : read_write_lock :=
  {| reader_count := reader_count l; writer_waiting := writer_waiting l;
     read_mutex := b; write_mutex := write_mutex l |}.

Definition set_write_mutex (b : bool) (l : read_write_lock) : read_write_lock :=
  {| reader_count := reader_count l; writer_waiting := writer_waiting l;
     read_mutex := read_mutex l; write_mutex := b |}.

(** ** Atomic operations *)

(** [a.compare_exchange_strong(expected, desired)] on an atomic holding
    [cur]: the new content of the atomic, the new content of [expected]
    (passed by reference) and the success flag. *)
Definition compare_exchange_strong (cur expected desired : Z) : Z * Z * bool :=
  if cur =? expected then (desired, expected, true) else (cur, cur, false).

(** Lines 89-96.
[[
  bool writer_is_not_writing() {
    char writer_status = NOT_WRITING;
    char new_writer_status = NOT_WRITING;
    writer_waiting.compare_exchange_strong(writer_status, new_writer_status);
    return writer_status == NOT_WRITING;
  }
]]
    Returns the lock after the exchange together with the result. *)
Definition writer_is_not_writing (l : read_write_lock) : read_write_lock * bool :=
  let writer_status := NOT_WRITING in
  let new_writer_status := NOT_WRITING in
  let '(stored, writer_status, _) :=
    compare_exchange_strong (writer_waiting l) writer_status new_writer_status in
  (set_writer_waiting stored l, writer_status =? NOT_WRITING).

(** The description the specification gives of the same function: an atomic
    load of the counter followed by a test against zero. *)
Definition atomic_load_is_zero (l : read_write_lock) : read_write_lock * bool :=
  (l, writer_waiting l =? 0).

(** ** Threads *)

(** The four public member functions, as a client names them in a call. *)
Inductive method := StartRead | EndRead | StartWrite | EndWrite.

(** Control points.  [Idle] is client code outside the lock; every other
    point names the next shared access of a member function.

    - [start_read] (lines 45-52): [SR_check] is line 46-47, [SR_lock] line 48,
      [SR_pred] the evaluation of the predicate of the wait on line 49,
      [SR_block] the atomic release-and-park of [wait(lock)], [SR_wait] the
      parked thread, [SR_woken] the re-acquisition of [read_mutex] after a
      wake-up, [SR_unlock] the destructor of [lock] on line 50, [SR_inc]
      line 51.
    - [end_read] (lines 55-58): [ER_dec], [ER_notify].
    - [start_write] (lines 67-74): [SW_lock] line 68, [SW_inc] line 69,
      [SW_test] line 70, [SW_pred], [SW_block], [SW_wait], [SW_woken] the
      wait on line 71, [SW_release] line 73.
    - [end_write] (lines 81-86): [EW_dec], [EW_notify_w], [EW_unlock],
      [EW_notify_r]. *)
Inductive pc :=
| Idle
| SR_check | SR_lock | SR_pred | SR_block | SR_wait | SR_woken | SR_unlock | SR_inc
| ER_dec | ER_notify
| SW_lock | SW_inc | SW_test | SW_pred | SW_block | SW_wait | SW_woken | SW_release
| EW_dec | EW_notify_w | EW_unlock | EW_notify_r.

(** A thread: its control point and the admissions it holds.  The two
    counters are the client's bookkeeping of the caller contract; the lock
    never reads them. *)
Record thread := {
  at_pc : pc;
  reads_held : Z;
  write_held : bool
}.

Definition goto (p : pc) (t : thread) : thread :=
  {| at_pc := p; reads_held := reads_held t; write_held := write_held t |}.

Definition new_thread : thread :=
  {| at_pc := Idle; reads_held := 0; write_held := false |}.

Record state := {
  lk : read_write_lock;
  pool : list thread
}.

Definition init (n : nat) : state :=
  {| lk := read_write_lock_new; pool := replicate n new_thread |}.

(** ** Condition variables *)

Inductive condvar := waiting_to_read | waiting_to_write.

(** The control point at which a thread is parked on a condition variable,
    and the one it resumes at. *)
Definition parked (cv : condvar) : pc :=
  match cv with waiting_to_read => SR_wait | waiting_to_write => SW_wait end.

Definition resumed (cv : condvar) : pc :=
  match cv with waiting_to_read => SR_woken | waiting_to_write => SW_woken end.

Definition pc_eqb (p q : pc) : bool :=
  match p, q with
  | Idle, Idle
  | SR_check, SR_check | SR_lock, SR_lock | SR_pred, SR_pred
  | SR_block, SR_block | SR_wait, SR_wait | SR_woken, SR_woken
  | SR_unlock, SR_unlock | SR_inc, SR_inc
  | ER_dec, ER_dec | ER_notify, ER_notify
  | SW_lock, SW_lock | SW_inc, SW_inc | SW_test, SW_test | SW_pred, SW_pred
  | SW_block, SW_block | SW_wait, SW_wait | SW_woken, SW_woken
  | SW_release, SW_release
  | EW_dec, EW_dec | EW_notify_w, EW_notify_w | EW_unlock, EW_unlock
  | EW_notify_r, EW_notify_r => true
  | _, _ => false
  end.

Definition wake (cv : condvar) (t : thread) : thread :=
  if pc_eqb (at_pc t) (parked cv) then goto (resumed cv) t else t.

(** [cv.notify_all()]: every thread parked on [cv] becomes runnable. *)
Definition notify_all (cv : condvar) (ts : list thread) : list thread :=
  wake cv <$> ts.

(** ** One atomic step of a thread *)

(** What a step does: the lock afterwards, the thread afterwards and the
    condition variable it notified, if any. *)
Definition outcome : Type := read_write_lock * thread * option condvar.

Definition continue (p : pc) (t : thread) (l : read_write_lock) : option outcome :=
  Some (l, goto p t, None).

Definition continue_notifying (cv : condvar) (p : pc) (t : thread)
    (l : read_write_lock) : option outcome :=
  Some (l, goto p t, Some cv).

(** Each member function is given as the function from the control point
    of a thread inside it to that thread's next shared access; [None] when
    the thread cannot move: it is parked, blocked on a locked mutex, or not
    inside this function. *)

(** Lines 45-52.
[[
  void start_read() {
    bool writer_is_writing = writer_is_not_writing();
    if (writer_is_writing != NOT_WRITING) {
      std::unique_lock<std::mutex> lock(read_mutex);
      waiting_to_read.wait(lock, [this] { return writer_is_not_writing(); });
    }
    reader_count++;
  }
]]
    The comparison on line 47 is between a [bool] and a [char], both
    promoted to [int].  [wait(lock, pred)] is [while (!pred()) wait(lock);]
    and [wait(lock)] releases the mutex and parks in one atomic step, then
    re-acquires the mutex once woken. *)
Definition start_read (l : read_write_lock) (t : thread) : option outcome :=
  match at_pc t with
  | SR_check =>
      let '(l', writer_is_writing) := writer_is_not_writing l in
      if negb (Z.b2z writer_is_writing =? NOT_WRITING)
      then continue SR_lock t l'
      else continue SR_inc t l'
  | SR_lock =>
      if read_mutex l then None
      else continue SR_pred t (set_read_mutex true l)
  | SR_pred =>
      let '(l', p) := writer_is_not_writing l in
      if p then continue SR_unlock t l' else continue SR_block t l'
  | SR_block => continue SR_wait t (set_read_mutex false l)
  | SR_woken =>
      if read_mutex l then None
      else continue SR_pred t (set_read_mutex true l)
  | SR_unlock => continue SR_inc t (set_read_mutex false l)
  | SR_inc =>
      Some (set_reader_count (wrap_int (reader_count l + 1)) l,
            {| at_pc := Idle; reads_held := reads_held t + 1;
               write_held := write_held t |},
            None)
  | _ => None
  end.

(** Lines 55-58.
[[
  void end_read() {
    reader_count--;
    waiting_to_write.notify_all();
  }
]] *)
Definition end_read (l : read_write_lock) (t : thread) : option outcome :=
  match at_pc t with
  | ER_dec =>
      Some (set_reader_count (wrap_int (reader_count l - 1)) l,
            {| at_pc := ER_notify; reads_held := reads_held t - 1;
               write_held := write_held t |},
            None)
  | ER_notify => continue_notifying waiting_to_write Idle t l
  | _ => None
  end.

(** Lines 67-74.
[[
  void start_write() {
    std::unique_lock<std::mutex> lock(write_mutex);
    writer_waiting += 1;
    if (reader_count > 0) {
      waiting_to_write.wait(lock, [this] { return reader_count <= 0; });
    }
    lock.release();
  }
]]
    [lock.release()] gives up the [unique_lock]'s ownership without
    unlocking: [write_mutex] stays locked across the return. *)
Definition start_write (l : read_write_lock) (t : thread) : option outcome :=
  match at_pc t with
  | SW_lock =>
      if write_mutex l then None
      else continue SW_inc t (set_write_mutex true l)
  | SW_inc =>
      continue SW_test t (set_writer_waiting (wrap_char (writer_waiting l + 1)) l)
  | SW_test =>
      if 0 <? reader_count l then continue SW_pred t l
      else continue SW_release t l
  | SW_pred =>
      if reader_count l <=? 0 then continue SW_release t l
      else continue SW_block t l
  | SW_block => continue SW_wait t (set_write_mutex false l)
  | SW_woken =>
      if write_mutex l then None
      else continue SW_pred t (set_write_mutex true l)
  | SW_release =>
      Some (l,
            {| at_pc := Idle; reads_held := reads_held t; write_held := true |},
            None)
  | _ => None
  end.

(** Lines 81-86.
[[
  void end_write() {
    writer_waiting -= 1;
    waiting_to_write.notify_all();
    write_mutex.unlock();
    waiting_to_read.notify_all();
  }
]] *)
Definition end_write (l : read_write_lock) (t : thread) : option outcome :=
  match at_pc t with
  | EW_dec =>
      continue EW_notify_w t
        (set_writer_waiting (wrap_char (writer_waiting l - 1)) l)
  | EW_notify_w => continue_notifying waiting_to_write EW_unlock t l
  | EW_unlock =>
      Some (set_write_mutex false l,
            {| at_pc := EW_notify_r; reads_held := reads_held t;
               write_held := false |},
            None)
  | EW_notify_r => continue_notifying waiting_to_read Idle t l
  | _ => None
  end.

(** The next shared access of thread [t] on lock [l]. *)
Definition thread_step (l : read_write_lock) (t : thread) : option outcome :=
  match at_pc t with
  | Idle => None
  | SR_check | SR_lock | SR_pred | SR_block | SR_wait | SR_woken | SR_unlock
  | SR_inc => start_read l t
  | ER_dec | ER_notify => end_read l t
  | SW_lock | SW_inc | SW_test | SW_pred | SW_block | SW_wait | SW_woken
  | SW_release => start_write l t
  | EW_dec | EW_notify_w | EW_unlock | EW_notify_r => end_write l t
  end.

(** ** Clients *)

Definition entry (m : method) : pc :=
  match m with
  | StartRead => SR_check
  | EndRead => ER_dec
  | StartWrite => SW_lock
  | EndWrite => EW_dec
  end.

(** The caller contract of section 4.1: [end_read] needs a read admission
    from an earlier [start_read], [end_write] the write admission from an
    earlier [start_write]. *)
Definition contract (m : method) (t : thread) : bool :=
  match m with
  | StartRead | StartWrite => true
  | EndRead => 0 <? reads_held t
  | EndWrite => write_held t
  end.

(** A thread outside the lock calls [m]. *)
Definition thread_call (m : method) (l : read_write_lock) (t : thread) : option outcome :=
  match at_pc t with
  | Idle => if contract m t then continue (entry m) t l else None
  | _ => None
  end.

(** A spurious wake-up of a parked thread, which [wait] is allowed to
    perform at any time. *)
Definition thread_spurious (l : read_write_lock) (t : thread) : option outcome :=
  match at_pc t with
  | SR_wait => continue SR_woken t l
  | SW_wait => continue SW_woken t l
  | _ => None
  end.

(** ** Interleavings *)

Inductive label :=
| Call (i : nat) (m : method)
| Run (i : nat)
| Spurious (i : nat).

Definition tid (a : label) : nat :=
  match a with Call i _ | Run i | Spurious i => i end.

Definition local (a : label) : read_write_lock -> thread -> option outcome :=
  match a with
  | Call _ m => thread_call m
  | Run _ => thread_step
  | Spurious _ => thread_spurious
  end.

Definition signal (sig : option condvar) (ts : list thread) : list thread :=
  match sig with
  | Some cv => notify_all cv ts
  | None => ts
  end.

(** Thread [i] publishes the outcome of its step. *)
Definition commit (i : nat) (ts : list thread) (o : outcome) : state :=
  let '(l, t, sig) := o in
  {| lk := l; pool := <[i := t]> (signal sig ts) |}.

Definition exec (a : label) (s : state) : option state :=
  match pool s !! tid a with
  | Some t =>
      match local a (lk s) t with
      | Some o => Some (commit (tid a) (pool s) o)
      | None => None
      end
  | None => None
  end.

Definition step (i : nat) (s : state) : option state := exec (Run i) s.

(** A schedule is executed from left to right; it fails as soon as one of
    its transitions is not enabled. *)
Fixpoint run (sched : list label) (s : state) : option state :=
  match sched with
  | [] => Some s
  | a :: rest =>
      match exec a s with
      | Some s' => run rest s'
      | None => None
      end
  end.

(** The states of a lock shared by [n] threads. *)
Inductive reachable (n : nat) : state -> Prop :=
| reachable_init : reachable n (init n)
| reachable_exec a s s' :
    reachable n s -> exec a s = Some s' -> reachable n s'.

(** ** Bookkeeping for the invariants *)

(** Control points of [start_write] at which the thread owns [write_mutex]
    through its [unique_lock]. *)
Definition owns_write_mutex (p : pc) : bool :=
  match p with
  | SW_inc | SW_test | SW_pred | SW_block | SW_release => true
  | _ => false
  end.

(** Control points of [start_write] after [writer_waiting += 1]. *)
Definition announced (p : pc) : bool :=
  match p with
  | SW_test | SW_pred | SW_block | SW_wait | SW_woken | SW_release => true
  | _ => false
  end.

(** Control points of [end_write] after [writer_waiting -= 1] and before
    the unlock. *)
Definition retracted (p : pc) : bool :=
  match p with EW_notify_w | EW_unlock => true | _ => false end.

(** Control points of [end_write] up to the unlock. *)
Definition releasing (p : pc) : bool :=
  match p with EW_dec | EW_notify_w | EW_unlock => true | _ => false end.

(** How many times a thread accounts for the locked [write_mutex]. *)
Definition owner (t : thread) : Z :=
  Z.b2z (owns_write_mutex (at_pc t)) + Z.b2z (write_held t).

(** How many increments of [writer_waiting] by a thread are not yet undone. *)
Definition pending (t : thread) : Z :=
  Z.b2z (announced (at_pc t)) +
  Z.b2z (write_held t && negb (retracted (at_pc t))).

Definition total (w : thread -> Z) (ts : list thread) : Z :=
  foldr (fun t acc => w t + acc) 0 ts.

(** Read admissions handed out and not yet given back. *)
Definition outstanding_reads (s : state) : Z := total reads_held (pool s).

(** Writers that have announced themselves and not yet withdrawn. *)
Definition pending_writers (s : state) : Z := total pending (pool s).

Record thread_ok (t : thread) : Prop := {
  reads_nonneg : 0 <= reads_held t;
  reads_positive : at_pc t = ER_dec -> 0 < reads_held t;
  release_holds : releasing (at_pc t) = true -> write_held t = true
}.

Record invariant (s : state) : Prop := {
  inv_threads : Forall thread_ok (pool s);
  inv_readers : reader_count (lk s) = wrap_int (outstanding_reads s);
  inv_owner : total owner (pool s) = Z.b2z (write_mutex (lk s));
  inv_pending : writer_waiting (lk s) = wrap_char (pending_writers s)
}.

(** Thread [i] holds the write admission: its [start_write] has returned
    and its [end_write] has not yet unlocked [write_mutex]. *)
Definition holds_write (s : state) (i : nat) : bool :=
  match pool s !! i with
  | Some t => write_held t
  | None => false
  end.

(** Transition [a], taken in state [s], is the [write_mutex.unlock()] of
    thread [i]'s [end_write]. *)
Definition unlocks (i : nat) (a : label) (s : state) : bool :=
  match a, pool s !! i with
  | Run k, Some t => Nat.eqb k i && pc_eqb (at_pc t) EW_unlock
  | _, _ => false
  end.

(** Some transition of the schedule, run from [s], is that unlock. *)
Fixpoint unlocked_by (i : nat) (sched : list label) (s : state) : bool :=
  match sched with
  | [] => false
  | a :: rest =>
      match exec a s with
      | Some s' => unlocks i a s || unlocked_by i rest s'
      | None => false
      end
  end.

(** What a step of thread [i] did to the other threads. *)
Definition others_unchanged (i : nat) (s s' : state) : Prop :=
  forall j, j <> i -> pool s' !! j = pool s !! j.

Definition others_notified (cv : condvar) (i : nat) (s s' : state) : Prop :=
  forall j, j <> i -> pool s' !! j = wake cv <$> pool s !! j.

(** ** Schedules of one thread running alone *)

(** [start_read] when no writer is announced: check, lock, predicate,
    unlock, increment. *)
Definition start_read_no_writer (i : nat) : list label :=
  [Call i StartRead; Run i; Run i; Run i; Run i; Run i].

(** [start_read] when a writer is announced: check, increment. *)
Definition start_read_writer_pending (i : nat) : list label :=
  [Call i StartRead; Run i; Run i].

Definition end_read_steps (i : nat) : list label :=
  [Call i EndRead; Run i; Run i].

(** [start_write] with no reader inside: lock, increment, test, release. *)
Definition start_write_uncontended (i : nat) : list label :=
  [Call i StartWrite; Run i; Run i; Run i; Run i].

(** [start_write] while a reader is inside: lock, increment, test,
    predicate, park. *)
Definition start_write_park (i : nat) : list label :=
  [Call i StartWrite; Run i; Run i; Run i; Run i; Run i].

Definition end_write_steps (i : nat) : list label :=
  [Call i EndWrite; Run i; Run i; Run i; Run i].

Definition write_cycle (i : nat) : list label :=
  start_write_uncontended i ++ end_write_steps i.

Definition write_cycles (k : nat) (i : nat) : list label :=
  concat (replicate k (write_cycle i)).

(** Thread 0 takes a read admission, then threads [1..k] call
    [start_write] and park behind it. *)
Definition crowd (k : nat) : list label :=
  start_read_no_writer 0 ++ flat_map start_write_park (seq 1 k).

(** Thread 1 runs [start_read] up to, but not including, line 51; thread 0
    runs a whole [start_write]; thread 1 executes line 51. *)
Definition late_increment : list label :=
  [Call 1%nat StartRead; Run 1%nat; Run 1%nat; Run 1%nat; Run 1%nat]
  ++ start_write_uncontended 0 ++ [Run 1%nat].

(** Thread 0 runs a whole [start_write]; thread 1 then runs a whole
    [start_read]. *)
Definition overtake : list label :=
  start_write_uncontended 0 ++ start_read_writer_pending 1.

(** One thread holding [k] read admissions on an otherwise fresh lock. *)
Definition reading_state (k : Z) : state :=
  {| lk := set_reader_count (wrap_int k) read_write_lock_new;
     pool := [{| at_pc := Idle; reads_held := k; write_held := false |}] |}.

(** A thread as another thread's step leaves it: woken if the step
    notified the condition variable it is parked on. *)
Definition awaken (sig : option condvar) (t : thread) : thread :=
  match sig with Some cv => wake cv t | None => t end.

(** ** Some states of small pools, and schedules that reach them *)

(** Thread 0 is writing; thread 1 is outside the lock. *)
Definition writer_active : state :=
  {| lk := {| reader_count := 0; writer_waiting := 1;
              read_mutex := false; write_mutex := true |};
     pool := [ {| at_pc := Idle; reads_held := 0; write_held := true |};
               new_thread ] |}.

Definition to_writer_active : list label := start_write_uncontended 0.

(** Thread 1 is reading; thread 0 has announced itself and is about to
    test [reader_count]. *)
Definition writer_draining : state :=
  {| lk := {| reader_count := 1; writer_waiting := 1;
              read_mutex := false; write_mutex := true |};
     pool := [ {| at_pc := SW_test; reads_held := 0; write_held := false |};
               {| at_pc := Idle; reads_held := 1; write_held := false |} ] |}.

Definition to_writer_draining : list label :=
  start_read_no_writer 1 ++ [Call 0%nat StartWrite; Run 0%nat; Run 0%nat].

(** Thread 1 is reading; thread 0 is parked on [waiting_to_write]. *)
Definition writer_parked : state :=
  {| lk := {| reader_count := 1; writer_waiting := 1;
              read_mutex := false; write_mutex := false |};
     pool := [ {| at_pc := SW_wait; reads_held := 0; write_held := false |};
               {| at_pc := Idle; reads_held := 1; write_held := false |} ] |}.

Definition to_writer_parked : list label :=
  start_read_no_writer 1 ++ start_write_park 0.

(** Thread 0 is writing, thread 1 is parked on [waiting_to_write], thread 2
    on [waiting_to_read], and thread 3 is between the two lines of
    [end_read]. *)
Definition handover : state :=
  {| lk := {| reader_count := 0; writer_waiting := 2;
              read_mutex := false; write_mutex := true |};
     pool := [ {| at_pc := Idle; reads_held := 0; write_held := true |};
               {| at_pc := SW_wait; reads_held := 0; write_held := false |};
               {| at_pc := SR_wait; reads_held := 0; write_held := false |};
               {| at_pc := ER_notify; reads_held := 0; write_held := false |} ] |}.

Definition to_handover : list label :=
  start_read_no_writer 3
  ++ [Call 2%nat StartRead; Run 2%nat; Run 2%nat]
  ++ start_write_park 1
  ++ [Run 2%nat; Run 2%nat]
  ++ [Call 0%nat StartWrite; Run 0%nat; Run 0%nat; Run 0%nat]
  ++ [Call 3%nat EndRead; Run 3%nat]
  ++ [Run 0%nat; Run 0%nat].

(** ** The read side's mutex and quiescence *)

(** Control points of [start_read] at which the thread owns [read_mutex]
    through its [unique_lock]. *)
Definition owns_read_mutex (p : pc) : bool :=
  match p with
  | SR_pred | SR_block | SR_unlock => true
  | _ => false
  end.

Definition read_owner (t : thread) : Z := Z.b2z (owns_read_mutex (at_pc t)).

(** A thread outside the lock's code that holds no admission. *)
Definition at_rest (t : thread) : bool :=
  pc_eqb (at_pc t) Idle && (reads_held t =? 0) && negb (write_held t).

(** No call is in progress and no admission is outstanding. *)
Definition quiescent (s : state) : Prop :=
  Forall (fun t => at_rest t = true) (pool s).

(** ** More schedules and small states *)

Definition read_cycle (i : nat) : list label :=
  start_read_no_writer i ++ end_read_steps i.

(** A woken reader: re-acquire [read_mutex], predicate, unlock, increment. *)
Definition resume_read (j : nat) : list label :=
  [Run j; Run j; Run j; Run j].

(** A woken writer: re-acquire [write_mutex], predicate, release. *)
Definition resume_write (j : nat) : list label :=
  [Run j; Run j; Run j].

(** Thread 0 is writing; thread 1 is parked on [waiting_to_read]. *)
Definition reader_parked : state :=
  {| lk := {| reader_count := 0; writer_waiting := 1;
              read_mutex := false; write_mutex := true |};
     pool := [ {| at_pc := Idle; reads_held := 0; write_held := true |};
               {| at_pc := SR_wait; reads_held := 0; write_held := false |} ] |}.

Definition to_reader_parked : list label :=
  [Call 1%nat StartRead; Run 1%nat; Run 1%nat]
  ++ start_write_uncontended 0 ++ [Run 1%nat; Run 1%nat].

(** Thread 0 has found [reader_count > 0] in the predicate of its wait and
    is about to park; thread 1, the only reader, has called [end_read]. *)
Definition writer_about_to_park : state :=
  {| lk := {| reader_count := 1; writer_waiting := 1;
              read_mutex := false; write_mutex := true |};
     pool := [ {| at_pc := SW_block; reads_held := 0; write_held := false |};
               {| at_pc := ER_dec; reads_held := 1; write_held := false |} ] |}.

Definition to_writer_about_to_park : list label :=
  start_read_no_writer 1
  ++ [Call 0%nat StartWrite; Run 0%nat; Run 0%nat; Run 0%nat; Run 0%nat]
  ++ [Call 1%nat EndRead].

(** Thread 1 owns [read_mutex] and is about to evaluate the predicate of
    its wait; thread 0 is outside the lock. *)
Definition reader_at_predicate : state :=
  {| lk := {| reader_count := 0; writer_waiting := 0;
              read_mutex := true; write_mutex := false |};
     pool := [ new_thread;
               {| at_pc := SR_pred; reads_held := 0; write_held := false |} ] |}.

Definition to_reader_at_predicate : list label :=
  [Call 1%nat StartRead; Run 1%nat; Run 1%nat].




Arguments wrap_signed : simpl never.
Arguments wrap_int : simpl never.
Arguments wrap_char : simpl never.

(** ** Proof automation *)

(* The three control points [wake] distinguishes, for every field. *)
Ltac wake_cases :=
  let cv := fresh "cv" in
  intros cv [[] ? ?]; destruct cv; reflexivity.

(* Every case of a thread-local transition [H : local a l t = Some _]:
   one goal per label, control point and branch taken. *)
Ltac local_cases H :=
  match type of H with
  | local ?a ?l ?t = Some _ =>
      destruct a as [? []|?|?]; destruct t as [[] ? ?];
      unfold local, thread_call, thread_step, thread_spurious, contract,
        start_read, end_read, start_write, end_write,
        writer_is_not_writing, compare_exchange_strong, continue,
        continue_notifying, goto, NOT_WRITING in H;
      simpl in H;
      repeat match type of H with
             | context [if ?b then _ else _] => destruct b eqn:?; simpl in H
             end;
      try discriminate H;
      injection H as <- <- <-
  end.

(* The length side condition of a lookup in an updated pool. *)
Ltac pool_length :=
  unfold notify_all;
  repeat first [rewrite length_insert | rewrite length_fmap];
  eapply lookup_lt_Some; eassumption.

(* Lookups of threads other than the one that moved. *)
Ltac others :=
  unfold others_unchanged, others_notified, notify_all; simpl; intros;
  repeat first [ rewrite list_lookup_insert_ne by congruence
               | rewrite list_lookup_fmap ];
  try match goal with H : pool _ !! _ = Some _ |- _ => rewrite H end;
  simpl; unfold wake;
  repeat match goal with H : at_pc _ = _ |- _ => rewrite H; simpl end;
  try reflexivity.

(* Solves a goal [exec a s = Some ?s'] by running the transition. *)
Ltac fire :=
  unfold step, exec; simpl;
  first [ rewrite list_lookup_insert_eq by pool_length
        | match goal with H : _ !! _ = Some _ |- _ => rewrite H end ];
  simpl; reflexivity.

(* Lookups in a pool after several steps, of any thread. *)
Ltac pool_lookup :=
  cbn [signal]; unfold notify_all;
  repeat first [ rewrite list_lookup_insert_eq by pool_length
               | rewrite list_lookup_insert_ne by congruence
               | rewrite list_lookup_fmap ];
  repeat match goal with H : pool _ !! _ = Some _ |- _ => rewrite H end;
  cbn [fmap option_fmap option_map].

(* Brings a goal about [exec a s] to the thread-local transition. *)
Ltac at_thread :=
  unfold step, exec, commit;
  cbn [tid local pool lk signal entry goto at_pc reads_held write_held];
  pool_lookup;
  unfold thread_call, thread_step, start_read, end_read, start_write,
    end_write, contract;
  cbn [at_pc goto wake parked resumed pc_eqb reads_held write_held].

(** * Proofs *)

(** ** Arithmetic of the counters *)

Section WrapAround.

Variable bits : Z.

Lemma wrap_signed_add x d :
  wrap_signed bits (wrap_signed bits x + d) = wrap_signed bits (x + d).
Proof.
  unfold wrap_signed.
  replace ((x + 2 ^ (bits - 1)) mod 2 ^ bits - 2 ^ (bits - 1) + d + 2 ^ (bits - 1))
    with ((x + 2 ^ (bits - 1)) mod 2 ^ bits + d) by lia.
  rewrite Zplus_mod_idemp_l. do 2 f_equal. lia.
Qed.

Lemma wrap_signed_sub x d :
  wrap_signed bits (wrap_signed bits x - d) = wrap_signed bits (x - d).
Proof. rewrite <- !Z.add_opp_r. apply wrap_signed_add. Qed.

Hypothesis bits_pos : 0 < bits.

Lemma wrap_signed_small x :
  - 2 ^ (bits - 1) <= x < 2 ^ (bits - 1) -> wrap_signed bits x = x.
Proof.
  intros Hx. unfold wrap_signed.
  assert (2 ^ bits = 2 * 2 ^ (bits - 1)) as ->.
  { rewrite <- Z.pow_succ_r by lia. f_equal. lia. }
  rewrite Z.mod_small; lia.
Qed.

Lemma wrap_signed_mod x : wrap_signed bits x mod 2 ^ bits = x mod 2 ^ bits.
Proof.
  unfold wrap_signed.
  assert (0 < 2 ^ bits) by (apply Z.pow_pos_nonneg; lia).
  rewrite Zminus_mod_idemp_l. f_equal. lia.
Qed.

End WrapAround.

Lemma wrap_int_small x : INT_MIN <= x <= INT_MAX -> wrap_int x = x.
Proof.
  unfold INT_MIN, INT_MAX, wrap_int. intros H. apply wrap_signed_small; [lia|].
  change (32 - 1) with 31. lia.
Qed.

Lemma wrap_char_mod x : wrap_char x mod 2 ^ 8 = x mod 2 ^ 8.
Proof. apply wrap_signed_mod. lia. Qed.

(** The exchange of [NOT_WRITING] for [NOT_WRITING] stores back what it
    found. *)
Lemma writer_is_not_writing_eq l :
  writer_is_not_writing l = (l, writer_waiting l =? 0).
Proof.
  unfold writer_is_not_writing, compare_exchange_strong, NOT_WRITING.
  destruct l as [rc ww rm wm]. unfold set_writer_waiting.
  cbn [writer_waiting reader_count read_mutex write_mutex].
  destruct (ww =? 0) eqn:Hw; [apply Z.eqb_eq in Hw; subst; reflexivity|].
  rewrite Hw. reflexivity.
Qed.

(** ** Sums over the thread pool *)

Lemma total_insert w ts i t t' :
  ts !! i = Some t -> total w (<[i := t']> ts) = total w ts - w t + w t'.
Proof.
  revert i. induction ts as [|a ts IH]; intros [|i] H; simpl in *; try discriminate.
  - injection H as ->. lia.
  - rewrite (IH i H). lia.
Qed.

Lemma total_notify w cv ts :
  (forall t, w (wake cv t) = w t) -> total w (notify_all cv ts) = total w ts.
Proof.
  intros Hw. unfold notify_all. induction ts as [|a ts IH]; simpl; [reflexivity|].
  rewrite Hw. unfold fmap in IH. rewrite IH. reflexivity.
Qed.

Lemma total_nonneg w ts : (forall t, 0 <= w t) -> 0 <= total w ts.
Proof.
  intros Hw. induction ts as [|a ts IH]; simpl; [lia|]. specialize (Hw a). lia.
Qed.

Lemma total_nonneg_Forall w ts :
  Forall (fun t => 0 <= w t) ts -> 0 <= total w ts.
Proof. induction 1 as [|t ts Ht _ IH]; simpl; lia. Qed.

Lemma total_lookup_le w ts i t :
  (forall t, 0 <= w t) -> ts !! i = Some t -> w t <= total w ts.
Proof.
  intros Hw. revert i.
  induction ts as [|a ts IH]; intros [|i] H; simpl in *; try discriminate.
  - injection H as ->. pose proof (total_nonneg w ts Hw). lia.
  - specialize (IH i H). specialize (Hw a). lia.
Qed.

(** Two different threads weigh together no more than the whole pool. *)
Lemma total_lookup2_le w ts i j ti tj :
  (forall t, 0 <= w t) -> i <> j -> ts !! i = Some ti -> ts !! j = Some tj ->
  w ti + w tj <= total w ts.
Proof.
  intros Hw. revert i j.
  induction ts as [|a ts IH]; intros [|i] [|j] Hij Hi Hj;
    simpl in *; try discriminate; try congruence.
  - injection Hi as ->. pose proof (total_lookup_le w ts j tj Hw Hj). lia.
  - injection Hj as ->. pose proof (total_lookup_le w ts i ti Hw Hi). lia.
  - assert (i <> j) as Hne by congruence.
    specialize (IH i j Hne Hi Hj). specialize (Hw a). lia.
Qed.

Lemma total_replicate w n t : total w (replicate n t) = Z.of_nat n * w t.
Proof.
  induction n as [|n IH]; simpl replicate; simpl total; [lia|]. rewrite IH. lia.
Qed.

(** ** Transitions *)

Lemma exec_inv a s s' :
  exec a s = Some s' ->
  exists t l' t' sig,
    pool s !! tid a = Some t /\ local a (lk s) t = Some (l', t', sig) /\
    s' = {| lk := l'; pool := <[tid a := t']> (signal sig (pool s)) |}.
Proof.
  unfold exec. destruct (pool s !! tid a) as [t|] eqn:Ht; [|discriminate].
  destruct (local a (lk s) t) as [[[l' t'] sig]|] eqn:Hl; [|discriminate].
  intros [= <-]. exists t, l', t', sig. auto.
Qed.

Lemma notify_lookup cv (ts : list thread) j :
  notify_all cv ts !! j = wake cv <$> ts !! j.
Proof. unfold notify_all. apply list_lookup_fmap. Qed.

Lemma signal_length sig ts : length (signal sig ts) = length ts.
Proof. destruct sig; simpl; [apply length_fmap|reflexivity]. Qed.

Lemma signal_lookup sig ts j : signal sig ts !! j = awaken sig <$> ts !! j.
Proof.
  destruct sig as [cv|]; simpl; [apply notify_lookup|].
  destruct (ts !! j); reflexivity.
Qed.

(** The effect of a transition on the pool, thread by thread. *)
Lemma exec_effect a s s' :
  exec a s = Some s' ->
  exists t t' sig,
    pool s !! tid a = Some t /\
    local a (lk s) t = Some (lk s', t', sig) /\
    pool s' !! tid a = Some t' /\
    forall j, j <> tid a -> pool s' !! j = awaken sig <$> pool s !! j.
Proof.
  intros H. destruct (exec_inv a s s' H) as (t & l' & t' & sig & Ht & Hl & ->).
  exists t, t', sig. simpl. repeat split; auto.
  - apply list_lookup_insert_eq. rewrite signal_length. eapply lookup_lt_Some, Ht.
  - intros j Hj. rewrite list_lookup_insert_ne by congruence. apply signal_lookup.
Qed.

Lemma total_signal w sig ts :
  (forall cv t, w (wake cv t) = w t) -> total w (signal sig ts) = total w ts.
Proof.
  intros Hw. destruct sig as [cv|]; simpl; [|reflexivity]. apply total_notify, Hw.
Qed.

Lemma total_commit w i ts t l' t' sig :
  (forall cv t, w (wake cv t) = w t) -> ts !! i = Some t ->
  total w (pool (commit i ts (l', t', sig))) = total w ts - w t + w t'.
Proof.
  intros Hw Ht. simpl.
  assert (signal sig ts !! i = Some (awaken sig t)) as Hs
    by (rewrite signal_lookup, Ht; reflexivity).
  rewrite (total_insert w _ i _ t' Hs), total_signal by exact Hw.
  destruct sig; simpl; [rewrite Hw|]; reflexivity.
Qed.

Lemma run_app sched1 sched2 s :
  run (sched1 ++ sched2) s =
  match run sched1 s with Some s' => run sched2 s' | None => None end.
Proof.
  revert s. induction sched1 as [|a sched1 IH]; intros s; simpl; [reflexivity|].
  destruct (exec a s); [apply IH|reflexivity].
Qed.

Lemma run_cons a sched s s1 r :
  exec a s = Some s1 -> run sched s1 = r -> run (a :: sched) s = r.
Proof. intros H1 H2. simpl. rewrite H1. exact H2. Qed.

Lemma run_reachable n sched s s' :
  reachable n s -> run sched s = Some s' -> reachable n s'.
Proof.
  revert s. induction sched as [|a sched IH]; intros s Hs H; simpl in H.
  - injection H as <-. exact Hs.
  - destruct (exec a s) as [s1|] eqn:Hx; [|discriminate].
    eapply IH; [|exact H]. eapply reachable_exec; eauto.
Qed.

(** ** Waking a thread changes none of the bookkeeping *)

Lemma reads_held_wake cv t : reads_held (wake cv t) = reads_held t.
Proof. revert cv t. wake_cases. Qed.

Lemma owner_wake cv t : owner (wake cv t) = owner t.
Proof. revert cv t. wake_cases. Qed.

Lemma pending_wake cv t : pending (wake cv t) = pending t.
Proof. revert cv t. wake_cases. Qed.

Lemma write_held_wake cv t : write_held (wake cv t) = write_held t.
Proof. revert cv t. wake_cases. Qed.

Lemma write_held_awaken sig t : write_held (awaken sig t) = write_held t.
Proof. destruct sig; [apply write_held_wake|reflexivity]. Qed.


Lemma thread_ok_wake cv t : thread_ok t -> thread_ok (wake cv t).
Proof.
  destruct t as [p r w]. intros [H1 H2 H3].
  destruct cv, p; simpl in *; constructor; simpl; auto; try discriminate.
Qed.

Lemma owner_nonneg t : 0 <= owner t.
Proof. unfold owner. destruct (owns_write_mutex _), (write_held t); simpl; lia. Qed.

(** ** The invariants *)

Lemma local_thread_ok a l t l' t' sig :
  local a l t = Some (l', t', sig) -> thread_ok t -> thread_ok t'.
Proof.
  intros H [H1 H2 H3]. local_cases H; simpl in *;
    try specialize (H2 eq_refl); try specialize (H3 eq_refl);
    constructor; simpl; intros; try discriminate; try lia; auto.
Qed.

Lemma local_readers a l t l' t' sig T :
  local a l t = Some (l', t', sig) ->
  reader_count l = wrap_int T ->
  reader_count l' = wrap_int (T - reads_held t + reads_held t').
Proof.
  intros H HT. local_cases H; simpl; rewrite ?HT; unfold wrap_int;
    rewrite ?wrap_signed_add, ?wrap_signed_sub; f_equal; lia.
Qed.

Lemma local_owner a l t l' t' sig O :
  local a l t = Some (l', t', sig) -> thread_ok t ->
  O = Z.b2z (write_mutex l) -> owner t <= O ->
  O - owner t + owner t' = Z.b2z (write_mutex l').
Proof.
  intros H [H1 H2 H3] HO Hle. unfold owner in *.
  local_cases H; simpl in *; try specialize (H3 eq_refl); subst;
    destruct (write_mutex l); simpl in *;
    repeat match goal with b : bool |- _ => destruct b end;
    simpl in *; try discriminate; lia.
Qed.

Lemma local_pending a l t l' t' sig P :
  local a l t = Some (l', t', sig) -> thread_ok t -> owner t <= 1 ->
  writer_waiting l = wrap_char P ->
  writer_waiting l' = wrap_char (P - pending t + pending t').
Proof.
  intros H [H1 H2 H3] Hle HP. unfold owner, pending in *.
  local_cases H; simpl in *; try specialize (H3 eq_refl); subst;
    repeat match goal with b : bool |- _ => destruct b end;
    simpl in *; try discriminate;
    first
      [ rewrite HP; unfold wrap_char;
        rewrite ?wrap_signed_add, ?wrap_signed_sub; f_equal; lia
      | transitivity (writer_waiting l);
        [ symmetry; apply Z.eqb_eq; assumption
        | rewrite HP; f_equal; lia ] ].
Qed.

Lemma invariant_init n : invariant (init n).
Proof.
  constructor; unfold outstanding_reads, pending_writers; simpl.
  - apply Forall_replicate. constructor; simpl; [lia|discriminate|discriminate].
  - rewrite total_replicate. change (reads_held new_thread) with 0.
    rewrite Z.mul_0_r. reflexivity.
  - rewrite total_replicate. change (owner new_thread) with 0.
    rewrite Z.mul_0_r. reflexivity.
  - rewrite total_replicate. change (pending new_thread) with 0.
    rewrite Z.mul_0_r. reflexivity.
Qed.

Lemma invariant_exec a s s' : invariant s -> exec a s = Some s' -> invariant s'.
Proof.
  intros [Hth Hr Ho Hp] H.
  destruct (exec_inv a s s' H) as (t & l' & t' & sig & Ht & Hl & ->).
  assert (thread_ok t) as Hok.
  { rewrite Forall_lookup in Hth. exact (Hth _ _ Ht). }
  assert (owner t <= total owner (pool s)) as Hle.
  { eapply total_lookup_le; [apply owner_nonneg|exact Ht]. }
  pose proof (total_commit reads_held (tid a) (pool s) t l' t' sig reads_held_wake Ht) as Er.
  pose proof (total_commit owner (tid a) (pool s) t l' t' sig owner_wake Ht) as Eo.
  pose proof (total_commit pending (tid a) (pool s) t l' t' sig pending_wake Ht) as Ep.
  simpl in Er, Eo, Ep.
  unfold outstanding_reads, pending_writers in *.
  constructor; unfold outstanding_reads, pending_writers; simpl.
  - apply Forall_insert; [|eapply local_thread_ok; eauto].
    destruct sig as [cv|]; simpl; [|exact Hth].
    unfold notify_all. apply Forall_fmap. eapply Forall_impl; [exact Hth|].
    intros x Hx. apply thread_ok_wake, Hx.
  - rewrite Er. eapply local_readers; eauto.
  - rewrite Eo. eapply local_owner; eauto.
  - rewrite Ep. eapply local_pending; eauto.
    rewrite Ho in Hle. destruct (write_mutex (lk s)); simpl in Hle; lia.
Qed.

Lemma reachable_invariant n s : reachable n s -> invariant s.
Proof.
  induction 1 as [|a s s' _ IH Hx]; [apply invariant_init|].
  exact (invariant_exec a s s' IH Hx).
Qed.

Lemma outstanding_reads_nonneg n s : reachable n s -> 0 <= outstanding_reads s.
Proof.
  intros Hs. destruct (reachable_invariant n s Hs) as [Hth _ _ _].
  apply total_nonneg_Forall. eapply Forall_impl; [exact Hth|].
  intros t [H _ _]. exact H.
Qed.

(** Below the overflow of [int], [reader_count] is the number of read
    admissions outstanding. *)
Lemma reader_count_exact n s :
  reachable n s -> outstanding_reads s < 2 ^ 31 ->
  reader_count (lk s) = outstanding_reads s.
Proof.
  intros Hs Hb. pose proof (outstanding_reads_nonneg n s Hs) as H0.
  destruct (reachable_invariant n s Hs) as [_ Hr _ _].
  rewrite Hr. apply wrap_int_small. unfold INT_MIN, INT_MAX. lia.
Qed.

(** [reader_count] always holds an [int]. *)
Lemma reader_count_in_range n s :
  reachable n s -> INT_MIN <= reader_count (lk s) <= INT_MAX.
Proof.
  intros Hs. destruct (reachable_invariant n s Hs) as [_ Hr _ _].
  rewrite Hr. unfold wrap_int, wrap_signed, INT_MIN, INT_MAX.
  change (32 - 1) with 31.
  pose proof (Z.mod_pos_bound (outstanding_reads s + 2 ^ 31) (2 ^ 32)). lia.
Qed.

(** ** The small states are reachable *)

Lemma writer_active_reachable : reachable 2 writer_active.
Proof.
  apply (run_reachable 2 to_writer_active (init 2));
    [apply reachable_init | reflexivity].
Qed.

Lemma writer_draining_reachable : reachable 2 writer_draining.
Proof.
  apply (run_reachable 2 to_writer_draining (init 2));
    [apply reachable_init | reflexivity].
Qed.

Lemma writer_parked_reachable : reachable 2 writer_parked.
Proof.
  apply (run_reachable 2 to_writer_parked (init 2));
    [apply reachable_init | reflexivity].
Qed.

Lemma handover_reachable : reachable 4 handover.
Proof.
  apply (run_reachable 4 to_handover (init 4));
    [apply reachable_init | reflexivity].
Qed.


(** * The claims *)

(** ** start_read *)

(** C1 (what the code does instead).  A [start_read] that begins while a
    writer is pending or active ([writer_waiting <> 0]) does not block: its
    test on line 47 compares the result of [writer_is_not_writing] with
    [NOT_WRITING], so the wait is entered only when no writer is pending.
    With a writer pending the call runs its two accesses and returns with
    [reader_count] incremented, [writer_waiting] as it was (no [end_write]
    has run) and every other thread where it was. *)
Theorem start_read_passes_pending_writer s j t :
  pool s !! j = Some t -> at_pc t = Idle -> writer_waiting (lk s) <> 0 ->
  exists s',
    run (start_read_writer_pending j) s = Some s' /\
    lk s' = set_reader_count (wrap_int (reader_count (lk s) + 1)) (lk s) /\
    pool s' !! j =
      Some {| at_pc := Idle; reads_held := reads_held t + 1;
              write_held := write_held t |} /\
    others_unchanged j s s'.
Proof.
  intros Ht Hp Hw. destruct t as [p r w]. simpl in Hp. subst p.
  apply Z.eqb_neq in Hw.
  eexists. split.
  { eapply run_cons; [fire|].
    eapply run_cons.
    { unfold exec. cbn [tid local pool lk].
      rewrite list_lookup_insert_eq by pool_length.
      unfold thread_step, start_read. cbn [at_pc goto].
      rewrite writer_is_not_writing_eq, Hw. reflexivity. }
    eapply run_cons; [fire|]. reflexivity. }
  repeat split; try (apply list_lookup_insert_eq; pool_length); others.
Qed.

(** The writer of [writer_active] has returned from [start_write]; thread 1
    then returns from [start_read] holding a read admission. *)
Lemma start_read_passes_pending_writer_witness :
  reachable 2 writer_active /\
  holds_write writer_active 0 = true /\
  exists s',
    run (start_read_writer_pending 1) writer_active = Some s' /\
    holds_write s' 0 = true /\
    writer_waiting (lk s') = 1 /\
    reader_count (lk s') = 1 /\
    pool s' !! 1%nat =
      Some {| at_pc := Idle; reads_held := 1; write_held := false |}.
Proof.
  split; [exact writer_active_reachable|]. split; [reflexivity|].
  destruct (start_read_passes_pending_writer writer_active 1 new_thread)
    as (s' & Hrun & Hlk & Hself & Hoth).
  - reflexivity.
  - reflexivity.
  - simpl. lia.
  - exists s'. split; [exact Hrun|]. repeat split.
    + unfold holds_write. rewrite (Hoth 0%nat) by lia. reflexivity.
    + rewrite Hlk. reflexivity.
    + rewrite Hlk. reflexivity.
    + exact Hself.
Defined.

(** C2 (what the code does instead).  A state with [reader_count > 0] while
    a thread holds the write admission is reachable, in two ways.  In
    [late_increment] the reader passes both tests of [start_read] before the
    writer announces itself and increments afterwards: the test and the
    increment are separate accesses and nothing makes the writer wait for a
    reader between them.  In [overtake] the reader arrives after the writer
    was admitted and is let through by the test on line 47.  So it is not
    the case that [reader_count <= 0] whenever a thread holds the write
    admission. *)
Theorem readers_overlap_active_writer :
  (exists s, run late_increment (init 2) = Some s /\
     holds_write s 0 = true /\ outstanding_reads s = 1 /\
     reader_count (lk s) = 1 /\ writer_waiting (lk s) = 1) /\
  (exists s, run overtake (init 2) = Some s /\
     holds_write s 0 = true /\ outstanding_reads s = 1 /\
     reader_count (lk s) = 1 /\ writer_waiting (lk s) = 1) /\
  ~ (forall n s i, reachable n s -> holds_write s i = true ->
       reader_count (lk s) <= 0).
Proof.
  split; [eexists; repeat split; reflexivity|].
  split; [eexists; repeat split; reflexivity|].
  intros H.
  assert (reachable 2 (default (init 2) (run overtake (init 2)))) as Hr.
  { apply (run_reachable 2 overtake (init 2)); [apply reachable_init|reflexivity]. }
  specialize (H _ _ 0%nat Hr eq_refl). vm_compute in H. apply H. reflexivity.
Qed.

(** ** Writers exclude each other *)

(** Only the unlock of its own [end_write] takes the write admission away
    from a thread. *)
Lemma holds_write_exec i a s s' :
  exec a s = Some s' -> holds_write s i = true -> unlocks i a s = false ->
  holds_write s' i = true.
Proof.
  intros H Hh Hu.
  destruct (exec_effect a s s' H) as (t & t' & sig & Ht & Hl & Ht' & Hoth).
  unfold holds_write in *. destruct (decide (i = tid a)) as [->|Hne].
  - rewrite Ht in Hh. rewrite Ht'. unfold unlocks in Hu.
    generalize dependent (lk s'). intros l' Hl.
    local_cases Hl; simpl in *; try exact Hh; try reflexivity.
    rewrite Ht, Nat.eqb_refl in Hu. discriminate Hu.
  - rewrite (Hoth i Hne). destruct (pool s !! i) as [ti|]; [|discriminate].
    simpl. rewrite write_held_awaken. exact Hh.
Qed.

Lemma holds_write_run i sched s s' :
  run sched s = Some s' -> holds_write s i = true ->
  unlocked_by i sched s = false ->
  holds_write s' i = true.
Proof.
  revert s. induction sched as [|a sched IH]; intros s H Hh Hu; simpl in *.
  - injection H as <-. exact Hh.
  - destruct (exec a s) as [s1|] eqn:Hx; [|discriminate].
    apply orb_false_iff in Hu as [Hu1 Hu2].
    eapply IH; eauto using holds_write_exec.
Qed.

(** Beside a thread that holds the write admission nobody else accounts
    for [write_mutex], and the mutex is locked. *)
Lemma writers_exclude n s i j ti tj :
  reachable n s -> i <> j -> pool s !! i = Some ti -> pool s !! j = Some tj ->
  write_held ti = true ->
  owner tj = 0 /\ write_mutex (lk s) = true.
Proof.
  intros Hs Hij Hi Hj Hw.
  destruct (reachable_invariant n s Hs) as [_ _ Ho _].
  pose proof (total_lookup2_le owner (pool s) i j ti tj owner_nonneg Hij Hi Hj) as Hle.
  pose proof (owner_nonneg tj). rewrite Ho in Hle. unfold owner in Hle at 1.
  rewrite Hw in Hle.
  destruct (write_mutex (lk s)), (owns_write_mutex (at_pc ti));
    simpl in Hle; split; auto; lia.
Qed.

Lemma owner_zero t :
  owner t = 0 -> write_held t = false /\ owns_write_mutex (at_pc t) = false.
Proof.
  unfold owner. destruct (write_held t), (owns_write_mutex (at_pc t));
    simpl; intros; split; auto; lia.
Qed.

(** C3.  At most one thread holds the write admission.  While thread [i]
    holds it (its [start_write] has returned and its [end_write] has not yet
    unlocked [write_mutex]), no other thread [j] holds it; a [j] inside
    [start_write] owns no part of the mutex and cannot move while it is at
    the lock, parked, or re-acquiring the mutex after a wake-up; and in every
    continuation after which [j] holds the admission, [i] has executed the
    unlock of its [end_write]. *)
Theorem write_admission_is_exclusive n s i j :
  reachable n s -> holds_write s i = true -> i <> j ->
  holds_write s j = false /\
  (forall tj, pool s !! j = Some tj ->
     owns_write_mutex (at_pc tj) = false /\
     (at_pc tj = SW_lock \/ at_pc tj = SW_wait \/ at_pc tj = SW_woken ->
      step j s = None)) /\
  (forall sched s', run sched s = Some s' -> holds_write s' j = true ->
     unlocked_by i sched s = true).
Proof.
  intros Hs Hh Hij.
  assert (forall s1, reachable n s1 -> holds_write s1 i = true ->
                     holds_write s1 j = false) as Hex.
  { clear s Hs Hh. intros s Hs Hh. unfold holds_write in *.
    destruct (pool s !! i) as [ti|] eqn:Hi; [|discriminate].
    destruct (pool s !! j) as [tj|] eqn:Hj; [|reflexivity].
    destruct (writers_exclude n s i j ti tj Hs Hij Hi Hj Hh) as [Ho _].
    apply owner_zero in Ho. tauto. }
  split; [exact (Hex s Hs Hh)|]. split.
  - intros tj Hj. unfold holds_write in Hh.
    destruct (pool s !! i) as [ti|] eqn:Hi; [|discriminate].
    destruct (writers_exclude n s i j ti tj Hs Hij Hi Hj Hh) as [Ho Hm].
    apply owner_zero in Ho. split; [tauto|].
    intros Hpc. unfold step, exec. simpl. rewrite Hj.
    unfold thread_step, start_write.
    destruct Hpc as [-> | [-> | ->]]; rewrite ?Hm; reflexivity.
  - intros sched s' Hrun Hj.
    destruct (unlocked_by i sched s) eqn:Hu; [reflexivity|].
    pose proof (holds_write_run i sched s s' Hrun Hh Hu) as Hi'.
    pose proof (Hex s' (run_reachable n sched s s' Hs Hrun) Hi'). congruence.
Qed.

(** Thread 0 of [writer_active] holds the admission; thread 1 does not, and
    its [start_write] stops at the lock.  Once thread 0 has run [end_write]
    thread 1 is admitted, and that continuation contains the unlock. *)
Lemma write_admission_is_exclusive_witness :
  reachable 2 writer_active /\
  holds_write writer_active 0 = true /\
  0%nat <> 1%nat /\
  holds_write writer_active 1 = false /\
  run [Call 1%nat StartWrite; Run 1%nat] writer_active = None /\
  exists s',
    run (end_write_steps 0 ++ start_write_uncontended 1) writer_active = Some s' /\
    holds_write s' 1 = true /\
    unlocked_by 0 (end_write_steps 0 ++ start_write_uncontended 1) writer_active
      = true.
Proof.
  split; [exact writer_active_reachable|]. split; [reflexivity|].
  split; [lia|].
  destruct (write_admission_is_exclusive 2 writer_active 0 1) as (H1 & _ & H3).
  - exact writer_active_reachable.
  - reflexivity.
  - lia.
  - split; [exact H1|]. split; [reflexivity|].
    eexists. split; [reflexivity|]. split; [reflexivity|].
    eapply H3; reflexivity.
Defined.

(** ** start_write *)






(** C5.  [k] matched [start_write] / [end_write] cycles of a single thread
    on a freshly constructed lock end in the state of construction:
    [writer_waiting = 0] and [reader_count = 0].  From there one more
    [start_write] raises [writer_waiting] by exactly 1, to 1, leaving
    [reader_count] at 0, and the matching [end_write] lowers it by exactly
    1, back to the fresh state. *)
Theorem write_cycles_leave_counters_at_zero (k : nat) :
  exists s s1,
    run (write_cycles k 0) (init 1) = Some s /\
    writer_waiting (lk s) = 0 /\ reader_count (lk s) = 0 /\
    s = init 1 /\
    run (start_write_uncontended 0) s = Some s1 /\
    writer_waiting (lk s1) = writer_waiting (lk s) + 1 /\
    reader_count (lk s1) = 0 /\
    holds_write s1 0 = true /\
    run (end_write_steps 0) s1 = Some s /\
    writer_waiting (lk s) = writer_waiting (lk s1) - 1.
Proof.
  assert (run (write_cycles k 0) (init 1) = Some (init 1)) as Hk.
  { induction k as [|k IH]; [reflexivity|].
    unfold write_cycles in *. cbn [replicate concat].
    rewrite run_app. change (run (write_cycle 0) (init 1)) with (Some (init 1)).
    exact IH. }
  eexists (init 1), _. split; [exact Hk|].
  repeat split; reflexivity.
Qed.

(** ** end_write and end_read *)

(** C6.  [end_write], called by the thread that holds the write admission,
    performs four accesses in this order: it decrements [writer_waiting] and
    wakes nobody; it notifies [waiting_to_write], so that the writers parked
    there resume, and leaves the lock as it is; it unlocks [write_mutex];
    and only as its last access it notifies [waiting_to_read].  A writer
    parked on [waiting_to_write] is awake from the second access on; a
    reader parked on [waiting_to_read] is still parked after the third and
    awake after the fourth. *)
Theorem end_write_wakes_writers_then_readers s i t :
  pool s !! i = Some t -> at_pc t = Idle -> write_held t = true ->
  exists s0 s1 s2 s3 s4,
    exec (Call i EndWrite) s = Some s0 /\
    step i s0 = Some s1 /\ step i s1 = Some s2 /\
    step i s2 = Some s3 /\ step i s3 = Some s4 /\
    (lk s1 = set_writer_waiting (wrap_char (writer_waiting (lk s) - 1)) (lk s) /\
     others_unchanged i s s1) /\
    (lk s2 = lk s1 /\ others_notified waiting_to_write i s1 s2) /\
    (lk s3 = set_write_mutex false (lk s2) /\ others_unchanged i s2 s3) /\
    (lk s4 = lk s3 /\ others_notified waiting_to_read i s3 s4 /\
     pool s4 !! i =
       Some {| at_pc := Idle; reads_held := reads_held t; write_held := false |}) /\
    (forall j tj, j <> i -> pool s !! j = Some tj -> at_pc tj = SW_wait ->
       pool s1 !! j = Some tj /\ pool s2 !! j = Some (goto SW_woken tj)) /\
    (forall j tj, j <> i -> pool s !! j = Some tj -> at_pc tj = SR_wait ->
       pool s1 !! j = Some tj /\ pool s2 !! j = Some tj /\
       pool s3 !! j = Some tj /\ pool s4 !! j = Some (goto SR_woken tj)).
Proof.
  intros Ht Hp Hw. destruct t as [p r w]. simpl in *. subst p w.
  eexists _, _, _, _, _.
  do 5 (split; [fire|]).
  repeat split; try (apply list_lookup_insert_eq; pool_length); others.
Qed.

(** The writer of [handover] releases: the parked writer is awake before
    the mutex is unlocked, the parked reader only after the last access. *)
Lemma end_write_wakes_writers_then_readers_witness :
  reachable 4 handover /\
  exists s0 s1 s2 s3 s4,
    exec (Call 0%nat EndWrite) handover = Some s0 /\
    step 0 s0 = Some s1 /\ step 0 s1 = Some s2 /\
    step 0 s2 = Some s3 /\ step 0 s3 = Some s4 /\
    writer_waiting (lk s1) = 1 /\
    pool s2 !! 1%nat =
      Some {| at_pc := SW_woken; reads_held := 0; write_held := false |} /\
    write_mutex (lk s2) = true /\
    write_mutex (lk s3) = false /\
    pool s3 !! 2%nat =
      Some {| at_pc := SR_wait; reads_held := 0; write_held := false |} /\
    pool s4 !! 2%nat =
      Some {| at_pc := SR_woken; reads_held := 0; write_held := false |}.
Proof.
  split; [exact handover_reachable|].
  destruct (end_write_wakes_writers_then_readers handover 0
              {| at_pc := Idle; reads_held := 0; write_held := true |})
    as (s0 & s1 & s2 & s3 & s4 & H0 & H1 & H2 & H3 & H4
        & [L1 _] & [L2 _] & [L3 _] & _ & Hw & Hr);
    [reflexivity | reflexivity | reflexivity |].
  exists s0, s1, s2, s3, s4. do 5 (split; [assumption|]).
  destruct (Hw 1%nat {| at_pc := SW_wait; reads_held := 0; write_held := false |})
    as (_ & Hw2); [lia | reflexivity | reflexivity |].
  destruct (Hr 2%nat {| at_pc := SR_wait; reads_held := 0; write_held := false |})
    as (_ & _ & Hr3 & Hr4); [lia | reflexivity | reflexivity |].
  split; [rewrite L1; reflexivity|]. split; [exact Hw2|].
  split; [rewrite L2, L1; reflexivity|].
  split; [rewrite L3; reflexivity|].
  split; [exact Hr3|exact Hr4].
Defined.

(** C7 (amended).  Under the caller contract, and as long as fewer than
    [2^31] read admissions are outstanding, [reader_count] is the number of
    outstanding read admissions and so is never negative. *)
Theorem reader_count_nonneg_below_overflow n s :
  reachable n s -> outstanding_reads s < 2 ^ 31 ->
  reader_count (lk s) = outstanding_reads s /\ 0 <= reader_count (lk s).
Proof.
  intros Hs Hb. pose proof (reader_count_exact n s Hs Hb) as E.
  pose proof (outstanding_reads_nonneg n s Hs). split; [exact E|lia].
Qed.

Lemma reader_count_nonneg_below_overflow_witness :
  reachable 2 writer_draining /\
  outstanding_reads writer_draining < 2 ^ 31 /\
  reader_count (lk writer_draining) = outstanding_reads writer_draining /\
  0 <= reader_count (lk writer_draining).
Proof.
  split; [exact writer_draining_reachable|].
  split; [vm_compute; reflexivity|].
  apply (reader_count_nonneg_below_overflow 2 writer_draining).
  - exact writer_draining_reachable.
  - vm_compute. reflexivity.
Defined.

(** One more [start_read] of the only thread, no writer in sight. *)
Lemma start_read_again k :
  run (start_read_no_writer 0) (reading_state k) = Some (reading_state (k + 1)).
Proof.
  unfold reading_state.
  replace (wrap_int (k + 1)) with (wrap_int (wrap_int k + 1))
    by apply wrap_signed_add.
  reflexivity.
Qed.

Lemma reading_state_reachable k : 0 <= k -> reachable 1 (reading_state k).
Proof.
  revert k. apply natlike_ind.
  - apply reachable_init.
  - intros k Hk IH. eapply run_reachable; [exact IH|].
    apply start_read_again.
Qed.

(** C7 (as stated, refuted).  A single thread that calls [start_read]
    [2^31] times, each call returning, and never [end_read], respects the
    caller contract; the [int] counter has then wrapped to [INT_MIN]. *)
Lemma reader_count_wraps_negative :
  reachable 1 (reading_state (2 ^ 31)) /\
  outstanding_reads (reading_state (2 ^ 31)) = 2 ^ 31 /\
  reader_count (lk (reading_state (2 ^ 31))) = INT_MIN /\
  ~ 0 <= reader_count (lk (reading_state (2 ^ 31))).
Proof.
  split; [apply reading_state_reachable; lia|].
  split; [reflexivity|]. split; [reflexivity|].
  intros H. vm_compute in H. apply H. reflexivity.
Qed.

(** C8.  [end_read], called by a thread that holds a read admission,
    performs two accesses.  The first replaces [reader_count] by
    [reader_count - 1] (in [int] arithmetic; exactly one less for every
    value but [INT_MIN]) and touches nothing else of the lock and no other
    thread.  The second notifies [waiting_to_write], waking the writers
    parked there, and leaves the lock as it is.  [writer_waiting] and both
    mutexes are as before. *)
Theorem end_read_decrements_and_signals s i t :
  pool s !! i = Some t -> at_pc t = Idle -> 0 < reads_held t ->
  exists s0 s1 s2,
    exec (Call i EndRead) s = Some s0 /\
    step i s0 = Some s1 /\ step i s1 = Some s2 /\
    (lk s1 = set_reader_count (wrap_int (reader_count (lk s) - 1)) (lk s) /\
     others_unchanged i s s1) /\
    (lk s2 = lk s1 /\ others_notified waiting_to_write i s1 s2) /\
    pool s2 !! i =
      Some {| at_pc := Idle; reads_held := reads_held t - 1;
              write_held := write_held t |} /\
    (INT_MIN < reader_count (lk s) <= INT_MAX ->
     reader_count (lk s2) = reader_count (lk s) - 1) /\
    writer_waiting (lk s2) = writer_waiting (lk s) /\
    read_mutex (lk s2) = read_mutex (lk s) /\
    write_mutex (lk s2) = write_mutex (lk s) /\
    (forall j tj, j <> i -> pool s !! j = Some tj ->
       pool s2 !! j = Some (wake waiting_to_write tj)).
Proof.
  intros Ht Hp Hr. destruct t as [p r w]. simpl in *. subst p.
  apply Z.ltb_lt in Hr.
  eexists _, _, _.
  split.
  { unfold exec. cbn [tid local]. rewrite Ht. unfold thread_call, contract.
    cbn [at_pc reads_held]. rewrite Hr. reflexivity. }
  do 2 (split; [fire|]).
  repeat split; try (apply list_lookup_insert_eq; pool_length); others.
  apply wrap_int_small. unfold INT_MIN, INT_MAX in *. lia.
Qed.

(** The reader of [writer_parked] leaves: [reader_count] drops from 1 to 0
    and the parked writer is awake. *)
Lemma end_read_decrements_and_signals_witness :
  reachable 2 writer_parked /\
  exists s2,
    run (end_read_steps 1) writer_parked = Some s2 /\
    reader_count (lk s2) = 0 /\
    writer_waiting (lk s2) = 1 /\
    pool s2 !! 0%nat =
      Some {| at_pc := SW_woken; reads_held := 0; write_held := false |}.
Proof.
  split; [exact writer_parked_reachable|].
  destruct (end_read_decrements_and_signals writer_parked 1
              {| at_pc := Idle; reads_held := 1; write_held := false |})
    as (s0 & s1 & s2 & H0 & H1 & H2 & _ & _ & _ & Hdec & Hww & _ & _ & Hoth);
    [reflexivity | reflexivity | simpl; lia |].
  exists s2. split.
  - eapply run_cons; [exact H0|]. eapply run_cons; [exact H1|].
    eapply run_cons; [exact H2|]. reflexivity.
  - split; [rewrite Hdec; [reflexivity | vm_compute; split; [reflexivity|discriminate]]|].
    split; [rewrite Hww; reflexivity|].
    apply (Hoth 0%nat {| at_pc := SW_wait; reads_held := 0; write_held := false |});
      [lia | reflexivity].
Defined.

(** ** writer_waiting *)

(** C9.  [writer_is_not_writing] is an atomic load of [writer_waiting]
    followed by a test against zero: it returns the lock unchanged and
    [true] exactly when [writer_waiting] is 0, and the exchange of
    [NOT_WRITING] for [NOT_WRITING] leaves any stored value as it is. *)
Theorem writer_is_not_writing_is_a_load l :
  writer_is_not_writing l = atomic_load_is_zero l /\
  fst (writer_is_not_writing l) = l /\
  snd (writer_is_not_writing l) = (writer_waiting l =? 0) /\
  (forall cur,
     fst (fst (compare_exchange_strong cur NOT_WRITING NOT_WRITING)) = cur).
Proof.
  pose proof (writer_is_not_writing_eq l) as E.
  split; [exact E|]. rewrite E. split; [reflexivity|]. split; [reflexivity|].
  intros cur. unfold compare_exchange_strong, NOT_WRITING.
  destruct (cur =? 0) eqn:Hc; simpl; [apply Z.eqb_eq in Hc; congruence|reflexivity].
Qed.

(** C10.  [writer_waiting] is a counter in a [char], not a flag.  In every
    reachable state it is the number of pending writers wrapped to 8 bits,
    so equal to it modulo [2^8]; [start_write] adds 1 and [end_write]
    subtracts 1 in that arithmetic.  With 128 writers pending behind one
    reader the counter has wrapped to -128, and with 256 it is 0, so that
    [writer_is_not_writing] reports that no writer is pending. *)
Theorem writer_waiting_is_a_wrapping_byte :
  (forall n s, reachable n s ->
     writer_waiting (lk s) = wrap_char (pending_writers s) /\
     writer_waiting (lk s) mod 2 ^ 8 = pending_writers s mod 2 ^ 8) /\
  (forall l t, at_pc t = SW_inc ->
     start_write l t =
       Some (set_writer_waiting (wrap_char (writer_waiting l + 1)) l,
             goto SW_test t, None)) /\
  (forall l t, at_pc t = EW_dec ->
     end_write l t =
       Some (set_writer_waiting (wrap_char (writer_waiting l - 1)) l,
             goto EW_notify_w t, None)) /\
  (exists s, run (crowd 128) (init 129) = Some s /\
     pending_writers s = 128 /\ writer_waiting (lk s) = -128) /\
  (exists s, run (crowd 256) (init 257) = Some s /\
     pending_writers s = 256 /\ writer_waiting (lk s) = 0 /\
     snd (writer_is_not_writing (lk s)) = true).
Proof.
  split.
  { intros n s Hs. destruct (reachable_invariant n s Hs) as [_ _ _ Hp].
    split; [exact Hp|]. rewrite Hp. apply wrap_char_mod. }
  split. { intros l t H. unfold start_write. rewrite H. reflexivity. }
  split. { intros l t H. unfold end_write. rewrite H. reflexivity. }
  split; eexists; (split; [vm_compute; reflexivity|]);
    repeat split; vm_compute; reflexivity.
Qed.

(** In [handover] two writers are pending and the counter is 2. *)
Lemma writer_waiting_is_a_wrapping_byte_witness :
  reachable 4 handover /\
  pending_writers handover = 2 /\
  writer_waiting (lk handover) = wrap_char (pending_writers handover).
Proof.
  split; [exact handover_reachable|]. split; [reflexivity|].
  exact (proj1 (proj1 writer_waiting_is_a_wrapping_byte 4%nat handover
                  handover_reachable)).
Defined.

(** * Further properties of the code *)

(** ** The new small states are reachable *)

Lemma reader_parked_reachable : reachable 2 reader_parked.
Proof.
  apply (run_reachable 2 to_reader_parked (init 2));
    [apply reachable_init | reflexivity].
Qed.

Lemma writer_about_to_park_reachable : reachable 2 writer_about_to_park.
Proof.
  apply (run_reachable 2 to_writer_about_to_park (init 2));
    [apply reachable_init | reflexivity].
Qed.

Lemma reader_at_predicate_reachable : reachable 2 reader_at_predicate.
Proof.
  apply (run_reachable 2 to_reader_at_predicate (init 2));
    [apply reachable_init | reflexivity].
Qed.

(** ** The read side's mutex *)

Lemma read_owner_wake cv t : read_owner (wake cv t) = read_owner t.
Proof. revert cv t. wake_cases. Qed.

Lemma read_owner_nonneg t : 0 <= read_owner t.
Proof. unfold read_owner. destruct (owns_read_mutex _); simpl; lia. Qed.

Lemma local_read_owner a l t l' t' sig O :
  local a l t = Some (l', t', sig) ->
  O = Z.b2z (read_mutex l) -> read_owner t <= O ->
  O - read_owner t + read_owner t' = Z.b2z (read_mutex l').
Proof.
  intros H HO Hle. unfold read_owner in *.
  local_cases H; simpl in *; subst;
    destruct (read_mutex l); simpl in *; try discriminate; lia.
Qed.

Lemma read_mutex_accounted n s :
  reachable n s -> total read_owner (pool s) = Z.b2z (read_mutex (lk s)).
Proof.
  induction 1 as [|a s s' _ IH Hx].
  - simpl. rewrite total_replicate. change (read_owner new_thread) with 0.
    rewrite Z.mul_0_r. reflexivity.
  - destruct (exec_inv a s s' Hx) as (t & l' & t' & sig & Ht & Hl & ->).
    pose proof (total_commit read_owner (tid a) (pool s) t l' t' sig
                  read_owner_wake Ht) as E.
    simpl in E. simpl. rewrite E. eapply local_read_owner; eauto.
    eapply total_lookup_le; [apply read_owner_nonneg|exact Ht].
Qed.

Lemma total_zero w ts : Forall (fun t => w t = 0) ts -> total w ts = 0.
Proof. induction 1 as [|t ts Ht _ IH]; simpl; lia. Qed.

Lemma total_positive w ts :
  (forall t, 0 <= w t) -> 0 < total w ts ->
  exists i t, ts !! i = Some t /\ 0 < w t.
Proof.
  intros Hw. induction ts as [|a ts IH]; simpl; [lia|]. intros Hpos.
  destruct (Z_lt_le_dec 0 (w a)) as [Ha|Ha].
  - exists 0%nat, a. split; [reflexivity|exact Ha].
  - destruct IH as (i & t & Hi & Ht); [specialize (Hw a); lia|].
    exists (S i), t. split; assumption.
Qed.

Lemma at_rest_spec t :
  at_rest t = true ->
  at_pc t = Idle /\ reads_held t = 0 /\ write_held t = false.
Proof.
  unfold at_rest. destruct t as [[] r w]; simpl; try discriminate.
  destruct (r =? 0) eqn:Hr; simpl; [|discriminate]. apply Z.eqb_eq in Hr.
  destruct w; simpl; [discriminate|]. auto.
Qed.

(** X1.  Whenever no call is in progress and no admission is outstanding,
    the lock is exactly as the constructor left it: both counters are 0 and
    both mutexes are free, whatever happened before. *)
Theorem quiescent_lock_is_fresh n s :
  reachable n s -> quiescent s -> lk s = read_write_lock_new.
Proof.
  intros Hs Hq. unfold quiescent in Hq.
  destruct (reachable_invariant n s Hs) as [_ Hr Ho Hp].
  pose proof (read_mutex_accounted n s Hs) as Hm.
  unfold outstanding_reads, pending_writers in *.
  rewrite (total_zero reads_held) in Hr.
  2:{ eapply Forall_impl; [exact Hq|]. intros t Ht. apply at_rest_spec in Ht. tauto. }
  rewrite (total_zero owner) in Ho.
  2:{ eapply Forall_impl; [exact Hq|]. intros t Ht. apply at_rest_spec in Ht.
      destruct Ht as (H1 & _ & H3). unfold owner. rewrite H1, H3. reflexivity. }
  rewrite (total_zero pending) in Hp.
  2:{ eapply Forall_impl; [exact Hq|]. intros t Ht. apply at_rest_spec in Ht.
      destruct Ht as (H1 & _ & H3). unfold pending. rewrite H1, H3. reflexivity. }
  rewrite (total_zero read_owner) in Hm.
  2:{ eapply Forall_impl; [exact Hq|]. intros t Ht. apply at_rest_spec in Ht.
      destruct Ht as (H1 & _ & _). unfold read_owner. rewrite H1. reflexivity. }
  destruct (lk s) as [rc ww rm wm]. simpl in *. subst rc ww.
  destruct rm, wm; simpl in *; try discriminate; reflexivity.
Qed.

(** After a reader, a writer parked behind it, the hand-over and the
    writer's release, the pool of two threads is at rest again. *)
Lemma quiescent_lock_is_fresh_witness :
  run (to_writer_parked ++ end_read_steps 1 ++ resume_write 0
       ++ end_write_steps 0) (init 2) = Some (init 2) /\
  reachable 2 (init 2) /\
  quiescent (init 2) /\
  lk (init 2) = read_write_lock_new.
Proof.
  split; [reflexivity|].
  assert (quiescent (init 2)) as Hq by (repeat constructor).
  split; [apply reachable_init|]. split; [exact Hq|].
  apply (quiescent_lock_is_fresh 2 (init 2)); [apply reachable_init|exact Hq].
Defined.

(** X2.  [read_mutex] is held by at most one thread, and only inside the
    [if] block of [start_read] (lines 48-50): while one thread is there, no
    other is, the mutex is locked and a thread at the lock or re-acquiring
    after a wake-up cannot move; and whenever the mutex is locked some
    thread is inside that block, so it is never left locked by a call that
    has returned. *)
Theorem read_mutex_is_exclusive n s :
  reachable n s ->
  (forall i j ti tj, i <> j -> pool s !! i = Some ti -> pool s !! j = Some tj ->
     owns_read_mutex (at_pc ti) = true ->
     owns_read_mutex (at_pc tj) = false /\ read_mutex (lk s) = true /\
     (at_pc tj = SR_lock \/ at_pc tj = SR_woken -> step j s = None)) /\
  (read_mutex (lk s) = true ->
   exists k tk, pool s !! k = Some tk /\ owns_read_mutex (at_pc tk) = true).
Proof.
  intros Hs. pose proof (read_mutex_accounted n s Hs) as Hm. split.
  - intros i j ti tj Hij Hi Hj Hown.
    pose proof (total_lookup2_le read_owner (pool s) i j ti tj
                  read_owner_nonneg Hij Hi Hj) as Hle.
    rewrite Hm in Hle. unfold read_owner in Hle. rewrite Hown in Hle.
    assert (owns_read_mutex (at_pc tj) = false /\ read_mutex (lk s) = true) as [H1 H2].
    { destruct (owns_read_mutex (at_pc tj)), (read_mutex (lk s));
        simpl in Hle; split; auto; lia. }
    repeat split; auto.
    intros Hpc. unfold step, exec. cbn [tid local]. rewrite Hj.
    unfold thread_step, start_read.
    destruct Hpc as [-> | ->]; rewrite H2; reflexivity.
  - intros Hlocked. rewrite Hlocked in Hm.
    destruct (total_positive read_owner (pool s) read_owner_nonneg) as (k & tk & Hk & Hpos).
    { rewrite Hm. simpl. lia. }
    exists k, tk. split; [exact Hk|]. unfold read_owner in Hpos.
    destruct (owns_read_mutex (at_pc tk)); [reflexivity|simpl in Hpos; lia].
Qed.

Lemma read_mutex_is_exclusive_witness :
  reachable 2 reader_at_predicate /\
  owns_read_mutex
    (at_pc {| at_pc := SR_pred; reads_held := 0; write_held := false |}) = true /\
  read_mutex (lk reader_at_predicate) = true /\
  run [Call 0%nat StartRead; Run 0%nat; Run 0%nat] reader_at_predicate = None.
Proof.
  split; [exact reader_at_predicate_reachable|]. split; [reflexivity|].
  destruct (read_mutex_is_exclusive 2 reader_at_predicate
              reader_at_predicate_reachable) as [Hex _].
  destruct (Hex 1%nat 0%nat
              {| at_pc := SR_pred; reads_held := 0; write_held := false |}
              new_thread) as (_ & Hm & _);
    [lia | reflexivity | reflexivity | reflexivity |].
  split; [exact Hm|reflexivity].
Defined.

Lemma wrap_signed_idem bits x :
  wrap_signed bits (wrap_signed bits x) = wrap_signed bits x.
Proof.
  pose proof (wrap_signed_add bits x 0) as H.
  rewrite !Z.add_0_r in H. exact H.
Qed.

Lemma start_read_alone s i t :
  pool s !! i = Some t -> at_pc t = Idle ->
  writer_waiting (lk s) = 0 -> read_mutex (lk s) = false ->
  exists s',
    run (start_read_no_writer i) s = Some s' /\
    lk s' = set_reader_count (wrap_int (reader_count (lk s) + 1)) (lk s) /\
    pool s' =
      <[i := {| at_pc := Idle; reads_held := reads_held t + 1;
                write_held := write_held t |}]> (pool s).
Proof.
  intros Ht Hp Hww Hrm. destruct t as [p r w]. simpl in Hp. subst p.
  eexists. split.
  { eapply run_cons; [at_thread; reflexivity|].
    eapply run_cons.
    { at_thread. rewrite writer_is_not_writing_eq, Hww. reflexivity. }
    eapply run_cons; [at_thread; rewrite Hrm; reflexivity|].
    eapply run_cons.
    { at_thread. rewrite writer_is_not_writing_eq.
      cbn [writer_waiting set_read_mutex]. rewrite Hww. reflexivity. }
    eapply run_cons; [at_thread; reflexivity|].
    eapply run_cons; [at_thread; reflexivity|]. reflexivity. }
  cbn [lk pool commit signal]. split.
  - destruct (lk s) as [rc ww rm wm]. simpl in *. subst. reflexivity.
  - rewrite !list_insert_insert_eq. reflexivity.
Qed.

Lemma reader_count_rewrap n s :
  reachable n s -> wrap_int (reader_count (lk s)) = reader_count (lk s).
Proof. intros Hs. apply wrap_int_small, (reader_count_in_range n s Hs). Qed.

Lemma writer_waiting_rewrap n s :
  reachable n s -> wrap_char (writer_waiting (lk s)) = writer_waiting (lk s).
Proof.
  intros Hs. destruct (reachable_invariant n s Hs) as [_ _ _ Hp].
  rewrite Hp. apply wrap_signed_idem.
Qed.

(** X3.  Readers do not wait for readers.  In a reachable state with no
    writer announced and [read_mutex] free, any set of threads outside the
    lock can run [start_read] one after the other, each to completion,
    whatever [reader_count] already is: the counter grows by their number
    (in [int] arithmetic), each of them gains one read admission, and
    nothing else changes. *)
Theorem readers_enter_together n s (rs : list nat) :
  reachable n s -> NoDup rs ->
  (forall i, In i rs -> exists t, pool s !! i = Some t /\ at_pc t = Idle) ->
  writer_waiting (lk s) = 0 -> read_mutex (lk s) = false ->
  exists s',
    run (flat_map start_read_no_writer rs) s = Some s' /\
    reader_count (lk s') =
      wrap_int (reader_count (lk s) + Z.of_nat (length rs)) /\
    writer_waiting (lk s') = 0 /\
    read_mutex (lk s') = false /\
    write_mutex (lk s') = write_mutex (lk s) /\
    (forall i t, In i rs -> pool s !! i = Some t ->
       pool s' !! i =
         Some {| at_pc := Idle; reads_held := reads_held t + 1;
                 write_held := write_held t |}) /\
    (forall j, ~ In j rs -> pool s' !! j = pool s !! j).
Proof.
  intros Hs Hnd. revert s Hs.
  induction Hnd as [|i rs Hi Hnd IH]; intros s Hs Hidle Hww Hrm.
  - exists s. split; [reflexivity|]. simpl.
    rewrite Z.add_0_r, (reader_count_rewrap n s Hs). repeat split; auto.
    intros i t [].
  - destruct (Hidle i (or_introl eq_refl)) as (t & Ht & Hp).
    destruct (start_read_alone s i t Ht Hp Hww Hrm) as (s1 & Hrun1 & Hlk1 & Hpool1).
    assert (forall j, j <> i -> pool s1 !! j = pool s !! j) as Hoth.
    { intros j Hj. rewrite Hpool1. apply list_lookup_insert_ne. congruence. }
    assert (~ In i rs) as Hi' by (rewrite <- list_elem_of_In; exact Hi).
    destruct (IH s1) as (s' & Hrun & Hrc & Hww' & Hrm' & Hwm' & Hin & Hout).
    + eapply run_reachable; eauto.
    + intros j Hj. destruct (Hidle j (or_intror Hj)) as (tj & Htj & Hpj).
      exists tj. split; [|exact Hpj]. rewrite Hoth; [exact Htj|].
      intros ->. contradiction.
    + rewrite Hlk1. exact Hww.
    + rewrite Hlk1. exact Hrm.
    + exists s'. split.
      { cbn [flat_map]. rewrite run_app, Hrun1. exact Hrun. }
      split.
      { rewrite Hrc, Hlk1. cbn [reader_count set_reader_count].
        unfold wrap_int. rewrite wrap_signed_add. f_equal.
        cbn [length]. lia. }
      split; [exact Hww'|]. split; [exact Hrm'|].
      split; [rewrite Hwm', Hlk1; reflexivity|]. split.
      * intros j tj [<- | Hj] Htj.
        -- rewrite (Hout i Hi'), Hpool1.
           rewrite Ht in Htj. injection Htj as <-.
           apply list_lookup_insert_eq. eapply lookup_lt_Some, Ht.
        -- apply Hin; [exact Hj|]. rewrite Hoth; [exact Htj|].
           intros ->. contradiction.
      * intros j Hj. rewrite Hout by (intros H; apply Hj; right; exact H).
        apply Hoth. intros ->. apply Hj. left. reflexivity.
Qed.

Lemma readers_enter_together_witness :
  reachable 3 (init 3) /\
  exists s',
    run (flat_map start_read_no_writer [0; 1; 2]%nat) (init 3) = Some s' /\
    reader_count (lk s') = 3 /\ writer_waiting (lk s') = 0.
Proof.
  split; [apply reachable_init|].
  destruct (readers_enter_together 3 (init 3) [0; 1; 2]%nat)
    as (s' & Hrun & Hrc & Hww & _).
  - apply reachable_init.
  - apply (bool_decide_unpack _). vm_compute. exact I.
  - intros i [<- | [<- | [<- | []]]]; exists new_thread; split; reflexivity.
  - reflexivity.
  - reflexivity.
  - exists s'. split; [exact Hrun|]. split; [rewrite Hrc; reflexivity|exact Hww].
Defined.

(** X4.  [start_read] followed by [end_read], run by one thread with no
    writer announced, gives back the lock it found: [reader_count], both
    mutexes and the thread's admissions are as before; the only trace is
    the notification of [waiting_to_write]. *)
Theorem read_cycle_restores_lock n s i t :
  reachable n s -> pool s !! i = Some t -> at_pc t = Idle ->
  writer_waiting (lk s) = 0 -> read_mutex (lk s) = false ->
  exists s',
    run (read_cycle i) s = Some s' /\
    lk s' = lk s /\
    pool s' !! i = Some t /\
    others_notified waiting_to_write i s s'.
Proof.
  intros Hs Ht Hp Hww Hrm.
  destruct (start_read_alone s i t Ht Hp Hww Hrm) as (s1 & Hrun1 & Hlk1 & Hpool1).
  assert (0 <= reads_held t) as Hnn.
  { destruct (reachable_invariant n s Hs) as [Hth _ _ _].
    rewrite Forall_lookup in Hth. destruct (Hth _ _ Ht) as [H _ _]. exact H. }
  pose proof (reader_count_rewrap n s Hs) as Hrw.
  destruct t as [p r w]. simpl in Hp. subst p. cbn [reads_held write_held] in *.
  assert ((0 <? r + 1) = true) as Hpos by (apply Z.ltb_lt; lia).
  destruct s1 as [l1 p1]. cbn [lk pool] in Hlk1, Hpool1. subst l1 p1.
  eexists. split.
  { unfold read_cycle. rewrite run_app, Hrun1.
    eapply run_cons; [at_thread; rewrite Hpos; reflexivity|].
    eapply run_cons; [at_thread; reflexivity|].
    eapply run_cons; [at_thread; reflexivity|]. reflexivity. }
  cbn [lk pool]. split; [|split].
  - unfold wrap_int in *. cbn [reader_count set_reader_count].
    rewrite wrap_signed_sub. replace (reader_count (lk s) + 1 - 1) with (reader_count (lk s)) by lia.
    rewrite Hrw. destruct (lk s); reflexivity.
  - cbn [signal]. rewrite list_lookup_insert_eq by pool_length.
    unfold goto. cbn [reads_held write_held]. do 2 f_equal. lia.
  - cbn [signal]. others.
Qed.

Lemma read_cycle_restores_lock_witness :
  reachable 1 (reading_state 1) /\
  exists s',
    run (read_cycle 0) (reading_state 1) = Some s' /\
    lk s' = lk (reading_state 1) /\
    reader_count (lk s') = 1.
Proof.
  assert (reachable 1 (reading_state 1)) as Hr
    by (apply reading_state_reachable; lia).
  split; [exact Hr|].
  destruct (read_cycle_restores_lock 1 (reading_state 1) 0
              {| at_pc := Idle; reads_held := 1; write_held := false |})
    as (s' & Hrun & Hlk & _); try reflexivity; [exact Hr|].
  exists s'. split; [exact Hrun|]. split; [exact Hlk|].
  rewrite Hlk. reflexivity.
Defined.

Lemma free_mutex_no_holder n s i t :
  reachable n s -> pool s !! i = Some t -> write_mutex (lk s) = false ->
  write_held t = false.
Proof.
  intros Hs Ht Hm. destruct (reachable_invariant n s Hs) as [_ _ Ho _].
  pose proof (total_lookup_le owner (pool s) i t owner_nonneg Ht) as Hle.
  rewrite Ho, Hm in Hle. apply owner_zero. pose proof (owner_nonneg t).
  simpl in Hle. lia.
Qed.

(** X5.  In any reachable state with [write_mutex] free and no reader
    inside, a thread outside the lock runs [start_write] without waiting,
    holds the write admission with [writer_waiting] one higher and the mutex
    locked, and its [end_write] gives back the lock it found; every other
    thread is where it was, woken if it was parked. *)
Theorem write_cycle_restores_lock n s i t :
  reachable n s -> pool s !! i = Some t -> at_pc t = Idle ->
  write_mutex (lk s) = false -> reader_count (lk s) <= 0 ->
  exists s1 s',
    run (start_write_uncontended i) s = Some s1 /\
    holds_write s1 i = true /\
    writer_waiting (lk s1) = wrap_char (writer_waiting (lk s) + 1) /\
    write_mutex (lk s1) = true /\
    run (end_write_steps i) s1 = Some s' /\
    lk s' = lk s /\
    pool s' !! i = Some t /\
    (forall j, j <> i ->
       pool s' !! j =
         wake waiting_to_read <$> (wake waiting_to_write <$> pool s !! j)).
Proof.
  intros Hs Ht Hp Hm Hrc.
  pose proof (free_mutex_no_holder n s i t Hs Ht Hm) as Hw.
  pose proof (writer_waiting_rewrap n s Hs) as Hrw.
  destruct t as [p r w]. simpl in Hp, Hw. subst p w.
  assert ((0 <? reader_count (lk s)) = false) as Hno by (apply Z.ltb_ge; exact Hrc).
  eexists _, _. split.
  { eapply run_cons; [at_thread; reflexivity|].
    eapply run_cons; [at_thread; rewrite Hm; reflexivity|].
    eapply run_cons; [at_thread; reflexivity|].
    eapply run_cons.
    { at_thread. cbn [reader_count set_writer_waiting set_write_mutex].
      rewrite Hno. reflexivity. }
    eapply run_cons; [at_thread; reflexivity|]. reflexivity. }
  split. { unfold holds_write. cbn [pool]. pool_lookup. reflexivity. }
  split; [reflexivity|]. split; [reflexivity|]. split.
  { eapply run_cons; [at_thread; reflexivity|].
    eapply run_cons; [at_thread; reflexivity|].
    eapply run_cons; [at_thread; reflexivity|].
    eapply run_cons; [at_thread; reflexivity|].
    eapply run_cons; [at_thread; reflexivity|]. reflexivity. }
  cbn [lk pool signal]. split; [|split].
  - cbn [writer_waiting set_writer_waiting set_write_mutex].
    unfold wrap_char in *. rewrite wrap_signed_sub.
    replace (writer_waiting (lk s) + 1 - 1) with (writer_waiting (lk s)) by lia.
    rewrite Hrw. destruct (lk s) as [rc ww rm wm]. simpl in *. subst wm. reflexivity.
  - rewrite list_lookup_insert_eq by pool_length. reflexivity.
  - intros j Hj. unfold notify_all.
    repeat first [ rewrite list_lookup_insert_ne by congruence
                 | rewrite list_lookup_fmap ].
    reflexivity.
Qed.

Lemma write_cycle_restores_lock_witness :
  reachable 2 (init 2) /\
  exists s1 s',
    run (start_write_uncontended 1) (init 2) = Some s1 /\
    holds_write s1 1 = true /\
    run (end_write_steps 1) s1 = Some s' /\
    lk s' = read_write_lock_new.
Proof.
  split; [apply reachable_init|].
  destruct (write_cycle_restores_lock 2 (init 2) 1 new_thread)
    as (s1 & s' & H1 & Hh & _ & _ & H2 & Hlk & _);
    [apply reachable_init | reflexivity | reflexivity | reflexivity
    | simpl; lia |].
  exists s1, s'. repeat split; assumption.
Defined.

Lemma at_pc_awaken_unlock sig t :
  at_pc (awaken sig t) = SR_unlock -> at_pc t = SR_unlock.
Proof. destruct sig as [[]|], t as [[] ? ?]; simpl; intros; congruence. Qed.

(** X6.  The wait of [start_read] (line 49) is left only when no writer
    is announced: a thread comes to the end of the [if] block only by its
    own step from the predicate, in a state with [writer_waiting = 0].
    While [writer_waiting <> 0] a thread at the predicate goes on to park,
    parking releases [read_mutex], and a parked thread does not move. *)
Theorem reader_leaves_wait_only_without_writer s :
  (forall a s' i t t',
     exec a s = Some s' -> pool s !! i = Some t -> pool s' !! i = Some t' ->
     at_pc t <> SR_unlock -> at_pc t' = SR_unlock ->
     a = Run i /\ at_pc t = SR_pred /\ writer_waiting (lk s) = 0 /\
     lk s' = lk s) /\
  (forall i t, pool s !! i = Some t -> writer_waiting (lk s) <> 0 ->
     (at_pc t = SR_pred ->
      exists s', step i s = Some s' /\ lk s' = lk s /\
                 pool s' !! i = Some (goto SR_block t)) /\
     (at_pc t = SR_block ->
      exists s', step i s = Some s' /\
                 lk s' = set_read_mutex false (lk s) /\
                 pool s' !! i = Some (goto SR_wait t)) /\
     (at_pc t = SR_wait -> step i s = None)).
Proof.
  split.
  - intros a s' i t t' Hx Ht Ht' Hnot Hrel.
    destruct (exec_effect a s s' Hx) as (t0 & t0' & sig & Ht0 & Hl & Ht0' & Hoth).
    destruct (decide (i = tid a)) as [->|Hne].
    + rewrite Ht in Ht0. injection Ht0 as <-.
      rewrite Ht' in Ht0'. injection Ht0' as <-.
      generalize dependent (lk s'). intros l' Hl.
      destruct a as [k m|k|k]; cbn [local tid] in *.
      * unfold thread_call in Hl. destruct (at_pc t); try discriminate.
        destruct (contract m t); [|discriminate].
        injection Hl as <- <- <-. destruct m; discriminate.
      * unfold thread_step, start_read, end_read, start_write, end_write,
          continue, continue_notifying in Hl.
        rewrite writer_is_not_writing_eq in Hl.
        destruct t as [[] r w]; cbn [at_pc] in *; try discriminate;
          repeat match type of Hl with
                 | context [if ?b then _ else _] => destruct b eqn:?
                 end;
          try discriminate; injection Hl as <- <- <-;
          try discriminate; try congruence.
        repeat split; auto. apply Z.eqb_eq. assumption.
      * unfold thread_spurious in Hl.
        destruct t as [[] r w]; cbn [at_pc] in *; try discriminate;
          injection Hl as <- <- <-; discriminate.
    + rewrite (Hoth i Hne), Ht in Ht'. simpl in Ht'. injection Ht' as <-.
      apply at_pc_awaken_unlock in Hrel. contradiction.
  - intros i t Ht Hw. apply Z.eqb_neq in Hw. repeat apply conj.
    + intros Hp. destruct t as [p r w]. simpl in Hp. subst p.
      eexists. split.
      { at_thread. rewrite writer_is_not_writing_eq, Hw. reflexivity. }
      split; [reflexivity|]. cbn [pool]. pool_lookup. reflexivity.
    + intros Hp. destruct t as [p r w]. simpl in Hp. subst p.
      eexists. split; [at_thread; reflexivity|].
      split; [reflexivity|]. cbn [pool]. pool_lookup. reflexivity.
    + intros Hp. unfold step, exec. cbn [tid local]. rewrite Ht.
      unfold thread_step, start_read. rewrite Hp. reflexivity.
Qed.

Lemma reader_leaves_wait_only_without_writer_witness :
  reachable 2 reader_parked /\
  writer_waiting (lk reader_parked) <> 0 /\
  step 1 reader_parked = None.
Proof.
  split; [exact reader_parked_reachable|].
  assert (writer_waiting (lk reader_parked) <> 0) as Hw by (simpl; lia).
  split; [exact Hw|].
  destruct (reader_leaves_wait_only_without_writer reader_parked) as [_ Hblock].
  destruct (Hblock 1%nat {| at_pc := SR_wait; reads_held := 0; write_held := false |})
    as (_ & _ & Hwait); [reflexivity | exact Hw |].
  exact (Hwait eq_refl).
Defined.

(** X7.  [end_read] notifies [waiting_to_write] without holding
    [write_mutex], so its notification can fall between a writer's
    evaluation of the predicate on line 71 and the moment the writer parks.
    From any state with a writer that has just found [reader_count > 0] and
    a reader that has called [end_read], the reader can decrement and
    notify before the writer parks: the writer is then parked although the
    notification meant for it has already been sent, and neither thread can
    take a step. *)
Theorem wakeup_of_a_writer_can_be_lost s i j ti tj :
  i <> j -> pool s !! i = Some ti -> pool s !! j = Some tj ->
  at_pc ti = SW_block -> at_pc tj = ER_dec ->
  exists s',
    run [Run j; Run j; Run i] s = Some s' /\
    reader_count (lk s') = wrap_int (reader_count (lk s) - 1) /\
    write_mutex (lk s') = false /\
    pool s' !! i = Some (goto SW_wait ti) /\
    pool s' !! j =
      Some {| at_pc := Idle; reads_held := reads_held tj - 1;
              write_held := write_held tj |} /\
    step i s' = None /\ step j s' = None.
Proof.
  intros Hij Hi Hj Hpi Hpj.
  destruct ti as [pi ri wi], tj as [pj rj wj]. simpl in Hpi, Hpj. subst pi pj.
  eexists. split.
  { eapply run_cons; [at_thread; reflexivity|].
    eapply run_cons; [at_thread; reflexivity|].
    eapply run_cons; [at_thread; reflexivity|]. reflexivity. }
  cbn [lk pool]. split; [reflexivity|]. split; [reflexivity|].
  split; [pool_lookup; reflexivity|]. split; [pool_lookup; reflexivity|].
  split; at_thread; reflexivity.
Qed.

(** With one reader and one writer the writer ends up parked at
    [reader_count = 0] with nobody left to notify it. *)
Lemma wakeup_of_a_writer_can_be_lost_witness :
  reachable 2 writer_about_to_park /\
  exists s',
    run [Run 1%nat; Run 1%nat; Run 0%nat] writer_about_to_park = Some s' /\
    reader_count (lk s') = 0 /\
    pool s' !! 0%nat =
      Some {| at_pc := SW_wait; reads_held := 0; write_held := false |} /\
    pool s' !! 1%nat = Some new_thread /\
    step 0 s' = None /\ step 1 s' = None.
Proof.
  split; [exact writer_about_to_park_reachable|].
  destruct (wakeup_of_a_writer_can_be_lost writer_about_to_park 0 1
              {| at_pc := SW_block; reads_held := 0; write_held := false |}
              {| at_pc := ER_dec; reads_held := 1; write_held := false |})
    as (s' & Hrun & Hrc & _ & H0 & H1 & Hs0 & Hs1);
    [lia | reflexivity | reflexivity | reflexivity | reflexivity |].
  exists s'. split; [exact Hrun|]. split; [rewrite Hrc; reflexivity|].
  split; [exact H0|]. split; [exact H1|]. split; assumption.
Defined.

(** X8.  The [end_write] of the only announced writer lets a parked reader
    in: after it, a reader parked on [waiting_to_read] re-acquires
    [read_mutex], finds the predicate true, and returns from [start_read]
    with [reader_count] incremented. *)
Theorem end_write_releases_parked_reader s i j ti tj :
  i <> j -> pool s !! i = Some ti -> pool s !! j = Some tj ->
  at_pc ti = Idle -> write_held ti = true -> at_pc tj = SR_wait ->
  writer_waiting (lk s) = 1 -> read_mutex (lk s) = false ->
  exists s',
    run (end_write_steps i ++ resume_read j) s = Some s' /\
    writer_waiting (lk s') = 0 /\
    write_mutex (lk s') = false /\
    read_mutex (lk s') = false /\
    reader_count (lk s') = wrap_int (reader_count (lk s) + 1) /\
    pool s' !! i =
      Some {| at_pc := Idle; reads_held := reads_held ti; write_held := false |} /\
    pool s' !! j =
      Some {| at_pc := Idle; reads_held := reads_held tj + 1;
              write_held := write_held tj |}.
Proof.
  intros Hij Hi Hj Hpi Hwi Hpj Hww Hrm.
  destruct ti as [pi ri wi], tj as [pj rj wj]. simpl in Hpi, Hwi, Hpj.
  subst pi wi pj.
  eexists. split.
  { unfold end_write_steps, resume_read. cbn [app].
    eapply run_cons; [at_thread; reflexivity|].
    eapply run_cons; [at_thread; reflexivity|].
    eapply run_cons; [at_thread; reflexivity|].
    eapply run_cons; [at_thread; reflexivity|].
    eapply run_cons; [at_thread; reflexivity|].
    eapply run_cons.
    { at_thread. cbn [read_mutex set_write_mutex set_writer_waiting].
      rewrite Hrm. reflexivity. }
    eapply run_cons.
    { at_thread. rewrite writer_is_not_writing_eq.
      cbn [writer_waiting set_read_mutex set_write_mutex set_writer_waiting].
      rewrite Hww. reflexivity. }
    eapply run_cons; [at_thread; reflexivity|].
    eapply run_cons; [at_thread; reflexivity|]. reflexivity. }
  cbn [lk pool].
  cbn [writer_waiting write_mutex read_mutex reader_count set_reader_count
       set_read_mutex set_write_mutex set_writer_waiting].
  rewrite ?Hww.
  repeat split; pool_lookup; reflexivity.
Qed.

Lemma end_write_releases_parked_reader_witness :
  reachable 2 reader_parked /\
  exists s',
    run (end_write_steps 0 ++ resume_read 1) reader_parked = Some s' /\
    writer_waiting (lk s') = 0 /\ reader_count (lk s') = 1 /\
    pool s' !! 1%nat =
      Some {| at_pc := Idle; reads_held := 1; write_held := false |}.
Proof.
  split; [exact reader_parked_reachable|].
  destruct (end_write_releases_parked_reader reader_parked 0 1
              {| at_pc := Idle; reads_held := 0; write_held := true |}
              {| at_pc := SR_wait; reads_held := 0; write_held := false |})
    as (s' & Hrun & Hww & _ & _ & Hrc & _ & Hj);
    [lia | reflexivity | reflexivity | reflexivity | reflexivity
    | reflexivity | reflexivity | reflexivity |].
  exists s'. split; [exact Hrun|]. split; [exact Hww|].
  split; [rewrite Hrc; reflexivity|exact Hj].
Defined.

(** X9.  The [end_read] of the last reader lets a parked writer in: after
    it, a writer parked on [waiting_to_write] re-acquires [write_mutex],
    finds [reader_count <= 0], and returns from [start_write] holding the
    write admission, with [writer_waiting] untouched. *)
Theorem end_read_admits_parked_writer s i j ti tj :
  i <> j -> pool s !! i = Some ti -> pool s !! j = Some tj ->
  at_pc ti = Idle -> 0 < reads_held ti -> at_pc tj = SW_wait ->
  reader_count (lk s) = 1 -> write_mutex (lk s) = false ->
  exists s',
    run (end_read_steps i ++ resume_write j) s = Some s' /\
    reader_count (lk s') = 0 /\
    write_mutex (lk s') = true /\
    writer_waiting (lk s') = writer_waiting (lk s) /\
    holds_write s' j = true /\
    pool s' !! j =
      Some {| at_pc := Idle; reads_held := reads_held tj; write_held := true |} /\
    pool s' !! i =
      Some {| at_pc := Idle; reads_held := reads_held ti - 1;
              write_held := write_held ti |}.
Proof.
  intros Hij Hi Hj Hpi Hri Hpj Hrc Hm.
  destruct ti as [pi ri wi], tj as [pj rj wj]. simpl in Hpi, Hri, Hpj.
  subst pi pj. apply Z.ltb_lt in Hri.
  eexists. split.
  { unfold end_read_steps, resume_write. cbn [app].
    eapply run_cons; [at_thread; rewrite Hri; reflexivity|].
    eapply run_cons; [at_thread; reflexivity|].
    eapply run_cons; [at_thread; reflexivity|].
    eapply run_cons.
    { at_thread. cbn [write_mutex set_reader_count]. rewrite Hm. reflexivity. }
    eapply run_cons.
    { at_thread. cbn [reader_count set_reader_count set_write_mutex].
      rewrite Hrc. reflexivity. }
    eapply run_cons; [at_thread; reflexivity|]. reflexivity. }
  unfold holds_write. cbn [lk pool].
  cbn [writer_waiting write_mutex read_mutex reader_count set_reader_count
       set_read_mutex set_write_mutex set_writer_waiting].
  rewrite ?Hrc.
  repeat split; pool_lookup; reflexivity.
Qed.

Lemma end_read_admits_parked_writer_witness :
  reachable 2 writer_parked /\
  exists s',
    run (end_read_steps 1 ++ resume_write 0) writer_parked = Some s' /\
    reader_count (lk s') = 0 /\ holds_write s' 0 = true /\
    writer_waiting (lk s') = 1.
Proof.
  split; [exact writer_parked_reachable|].
  destruct (end_read_admits_parked_writer writer_parked 1 0
              {| at_pc := Idle; reads_held := 1; write_held := false |}
              {| at_pc := SW_wait; reads_held := 0; write_held := false |})
    as (s' & Hrun & Hrc & _ & Hww & Hh & _);
    [lia | reflexivity | reflexivity | reflexivity | simpl; lia
    | reflexivity | reflexivity | reflexivity |].
  exists s'. split; [exact Hrun|]. split; [exact Hrc|].
  split; [exact Hh|rewrite Hww; reflexivity].
Defined.

(** X10.  A spurious wake-up changes nothing.  A reader parked while a
    writer is announced, or a writer parked while a reader is inside, that
    wakes up without a notification re-acquires its mutex, finds the
    predicate false and parks again: lock and pool are exactly as before. *)
Theorem spurious_wakeup_parks_again s j tj :
  pool s !! j = Some tj ->
  (at_pc tj = SR_wait -> writer_waiting (lk s) <> 0 ->
   read_mutex (lk s) = false ->
   exists s', run [Spurious j; Run j; Run j; Run j] s = Some s' /\
              lk s' = lk s /\ pool s' = pool s) /\
  (at_pc tj = SW_wait -> 0 < reader_count (lk s) ->
   write_mutex (lk s) = false ->
   exists s', run [Spurious j; Run j; Run j; Run j] s = Some s' /\
              lk s' = lk s /\ pool s' = pool s).
Proof.
  intros Hj. split.
  - intros Hp Hw Hm. destruct tj as [p r w]. simpl in Hp. subst p.
    apply Z.eqb_neq in Hw.
    eexists. split.
    { eapply run_cons.
      { unfold exec. cbn [tid local]. rewrite Hj. reflexivity. }
      eapply run_cons; [at_thread; rewrite Hm; reflexivity|].
      eapply run_cons.
      { at_thread. rewrite writer_is_not_writing_eq.
        cbn [writer_waiting set_read_mutex]. rewrite Hw. reflexivity. }
      eapply run_cons; [at_thread; reflexivity|]. reflexivity. }
    cbn [lk pool signal]. split.
    + destruct (lk s) as [rc ww rm wm]. simpl in *. subst rm. reflexivity.
    + rewrite !list_insert_insert_eq. apply list_insert_id. exact Hj.
  - intros Hp Hrc Hm. destruct tj as [p r w]. simpl in Hp. subst p.
    assert ((reader_count (lk s) <=? 0) = false) as Hle by (apply Z.leb_gt; exact Hrc).
    eexists. split.
    { eapply run_cons.
      { unfold exec. cbn [tid local]. rewrite Hj. reflexivity. }
      eapply run_cons; [at_thread; rewrite Hm; reflexivity|].
      eapply run_cons.
      { at_thread. cbn [reader_count set_write_mutex]. rewrite Hle. reflexivity. }
      eapply run_cons; [at_thread; reflexivity|]. reflexivity. }
    cbn [lk pool signal]. split.
    + destruct (lk s) as [rc ww rm wm]. simpl in *. subst wm. reflexivity.
    + rewrite !list_insert_insert_eq. apply list_insert_id. exact Hj.
Qed.

Lemma spurious_wakeup_parks_again_witness :
  reachable 2 reader_parked /\ reachable 2 writer_parked /\
  run [Spurious 1%nat; Run 1%nat; Run 1%nat; Run 1%nat] reader_parked
    = Some reader_parked /\
  run [Spurious 0%nat; Run 0%nat; Run 0%nat; Run 0%nat] writer_parked
    = Some writer_parked.
Proof.
  split; [exact reader_parked_reachable|].
  split; [exact writer_parked_reachable|]. split.
  - destruct (spurious_wakeup_parks_again reader_parked 1
                {| at_pc := SR_wait; reads_held := 0; write_held := false |}
                eq_refl) as [Hr _].
    destruct Hr as (s' & Hrun & Hlk & Hpool);
      [reflexivity | simpl; lia | reflexivity |].
    rewrite Hrun. f_equal. destruct s' as [l p]. simpl in Hlk, Hpool.
    subst. reflexivity.
  - destruct (spurious_wakeup_parks_again writer_parked 0
                {| at_pc := SW_wait; reads_held := 0; write_held := false |}
                eq_refl) as [_ Hw].
    destruct Hw as (s' & Hrun & Hlk & Hpool);
      [reflexivity | simpl; lia | reflexivity |].
    rewrite Hrun. f_equal. destruct s' as [l p]. simpl in Hlk, Hpool.
    subst. reflexivity.
Defined.

End ReadWriterLock.
